(** * Antigravity agent front end: masking, configuration cipher, tray service

    A shallow embedding of the TypeScript sources
    - [src/services/system-tray-service.ts]   ([SystemTrayService],
      [maskUsername], [maskBackupFilename]),
    - [src/services/config-export-manager/encryption-provider.ts]
      ([ConfigEncryptionProvider]),
    - the [AntigravityService] class,
    together with the properties the specification states about them.

    JavaScript strings are sequences of UTF-16 code units; they are modelled
    as [list Z], every element in [0, 65536).  JavaScript numbers that can be
    [NaN] at the places the code uses them are modelled as [option Z]. *)

From Stdlib Require Import ZArith Lia Ascii String.
From stdpp Require Import base tactics option list numbers.

Local Open Scope Z_scope.

(** ** JavaScript strings *)

Abbreviation jsstring := (list Z).

Module Js.

(** A Rocq string literal read as a JavaScript string (ASCII only). *)
Fixpoint lit (s : string) : jsstring :=
  match s with
  | EmptyString => []
  | String a s' => Z.of_nat (nat_of_ascii a) :: lit s'
  end.

(** [s.length] *)
Definition length (s : jsstring) : Z := Z.of_nat (List.length s).

(** Every element is a 16-bit code unit. *)
Definition wf (s : jsstring) : Prop := Forall (fun c => 0 <= c < 65536) s.

(** [!s] for a string: only the empty string is falsy. *)
Definition falsy (s : jsstring) : bool :=
  match s with [] => true | _ => false end.

(** [s.charAt(i)]: the one-unit string at [i], the empty string out of range. *)
Definition charAt (s : jsstring) (i : Z) : jsstring :=
  if (0 <=? i) && (i <? length s)
  then match s !! Z.to_nat i with Some c => [c] | None => [] end
  else [].

(** [s.lastIndexOf(c)] for a one-unit search string [c]: the largest index
    holding [c], or [-1]. *)
Fixpoint lastIndexOf (s : jsstring) (c : Z) : Z :=
  match s with
  | [] => -1
  | x :: s' =>
      let r := lastIndexOf s' c in
      if 0 <=? r then r + 1 else if x =? c then 0 else -1
  end.

(** Clamping of an index argument of [substring] to [0, length]. *)
Definition clamp (s : jsstring) (i : Z) : Z := Z.min (Z.max i 0) (length s).

(** [s.substring(start, end)]: both arguments clamped, swapped when
    [start > end]. *)
Definition substring (s : jsstring) (start end_ : Z) : jsstring :=
  let a := clamp s start in
  let b := clamp s end_ in
  let from := Z.min a b in
  let to := Z.max a b in
  take (Z.to_nat (to - from)) (drop (Z.to_nat from) s).

(** [s.substring(start)]: [end] defaults to the length. *)
Definition substring_from (s : jsstring) (start : Z) : jsstring :=
  substring s start (length s).

(** [for (let i = 0; i < n; i++) acc = body(i, acc)] *)
Definition for_upto {A : Type} (n : Z) (body : Z -> A -> A) (init : A) : A :=
  fold_left (fun acc i => body (Z.of_nat i) acc) (seq 0 (Z.to_nat n)) init.

End Js.

(** ** Masking utility ([system-tray-service.ts], lines 151-194) *)

Definition at_sign : Z := 64.   (* '@' *)
Definition star : Z := 42.      (* '*' *)

Definition maskUsername (email : jsstring) : jsstring :=
  if Js.falsy email then email
  else
    let atIndex := Js.lastIndexOf email at_sign in
    if (atIndex <=? 0) || (atIndex >=? Js.length email - 1) then email
    else
      let localPart := Js.substring email 0 atIndex in
      let domainPart := Js.substring_from email atIndex in
      if Js.length localPart <=? 2 then email
      else if Js.length localPart =? 2
      then Js.charAt localPart 0 ++ [star] ++ domainPart
      else
        let stars :=
          Js.for_upto (Js.length localPart - 2) (fun _ acc => acc ++ [star]) [] in
        Js.charAt localPart 0 ++ stars
          ++ Js.charAt localPart (Js.length localPart - 1) ++ domainPart.

Definition maskBackupFilename (backupFile : jsstring) : jsstring :=
  if Js.falsy backupFile then backupFile else maskUsername backupFile.

(** ** The remote-call boundary

    Every backend operation goes through [invoke(command, args)], which
    returns a promise.  The services await their calls one after the other,
    so a promise is modelled by its outcome and an [async] function by a
    function from the environment and the world before the call to its
    outcome and the world after it.  Messages are kept as Rocq strings (their
    UTF-8 bytes): the services only concatenate them. *)

Module Tauri.

(** The JavaScript values that cross the boundary or are thrown. *)
Inductive value : Type :=
  | VUndefined
  | VNull
  | VBool (b : bool)
  | VString (s : string)
  | VArray (items : list string)
  | VError (message : string).     (* [new Error(message)] *)

(** The commands the services send, with their arguments.  [open] of the
    dialog plugin is a remote call like the others. *)
Inductive command : Type :=
  | enable_system_tray
  | disable_system_tray
  | minimize_to_tray
  | restore_from_tray
  | is_system_tray_enabled
  | save_system_tray_state (enabled : bool)
  | get_system_tray_state
  | backup_and_restart_antigravity
  | is_antigravity_running
  | resolve_antigravity_path
  | save_antigravity_path (path : value)
  | list_backups
  | plugin_dialog_open.

(** [String(v)], which is also what a template literal applies. *)
Definition to_string (v : value) : string :=
  match v with
  | VUndefined => "undefined"
  | VNull => "null"
  | VBool true => "true"
  | VBool false => "false"
  | VString s => s
  | VArray items => String.concat "," items
  | VError EmptyString => "Error"
  | VError m => "Error: " ++ m
  end%string.

(** [!v] *)
Definition falsy (v : value) : bool :=
  match v with
  | VUndefined | VNull | VBool false | VString EmptyString => true
  | _ => false
  end.

(** [Array.isArray(v)] *)
Definition isArray (v : value) : bool :=
  match v with VArray _ => true | _ => false end.

(** [error instanceof Error ? error.message : String(error)] *)
Definition error_message (error : value) : string :=
  match error with
  | VError m => m
  | _ => to_string error
  end.

Inductive outcome (A : Type) : Type :=
  | Resolved (a : A)
  | Rejected (reason : value).
Arguments Resolved {A} a.
Arguments Rejected {A} reason.

(** What the program has done so far: the remote calls it made, what it
    wrote to the console, and the status updates it handed to the caller's
    [onStatusUpdate] callback (message and optional [isError]). *)
Record world : Type := {
  calls : list command;
  console : list (list value);
  status_updates : list (value * option bool)
}.

Definition no_history : world :=
  {| calls := []; console := []; status_updates := [] |}.

(** The environment: the backend answers a call knowing the calls made
    before it; [isWindows] is [navigator.userAgent.includes('Windows')]. *)
Record env : Type := {
  backend : list command -> command -> outcome value;
  isWindows : bool
}.

Definition async (A : Type) : Type := env -> world -> outcome A * world.

Definition ret {A} (a : A) : async A := fun _ w => (Resolved a, w).

Definition throw {A} (reason : value) : async A := fun _ w => (Rejected reason, w).

Definition bind {A B} (m : async A) (k : A -> async B) : async B :=
  fun e w =>
    match m e w with
    | (Resolved a, w') => k a e w'
    | (Rejected r, w') => (Rejected r, w')
    end.

(** [try { body } catch (error) { handler }] *)
Definition try_catch {A} (body : async A) (handler : value -> async A) : async A :=
  fun e w =>
    match body e w with
    | (Resolved a, w') => (Resolved a, w')
    | (Rejected r, w') => handler r e w'
    end.

(** [await invoke(cmd)] *)
Definition invoke (cmd : command) : async value :=
  fun e w =>
    (backend e (calls w) cmd,
     {| calls := calls w ++ [cmd];
        console := console w;
        status_updates := status_updates w |}).

(** [console.log], [console.warn] and [console.error] *)
Definition console_write (args : list value) : async unit :=
  fun _ w =>
    (Resolved tt,
     {| calls := calls w;
        console := console w ++ [args];
        status_updates := status_updates w |}).

(** The caller's [onStatusUpdate(message, isError?)], which records. *)
Definition onStatusUpdate (message : value) (isError : option bool) : async unit :=
  fun _ w =>
    (Resolved tt,
     {| calls := calls w;
        console := console w;
        status_updates := status_updates w ++ [(message, isError)] |}).

Definition userAgentIsWindows : async bool := fun e w => (Resolved (isWindows e), w).

End Tauri.

Import Tauri.

(** [x ← m; k] awaits [m] and continues with [k]; [m;; k] drops the result. *)
#[global] Instance async_ret : MRet async := @ret.
#[global] Instance async_bind : MBind async := fun A B k m => bind m k.

Local Open Scope string_scope.

(** ** System tray service ([system-tray-service.ts], lines 9-145) *)

Record SystemTrayStatus : Type := {
  enabled : bool;
  message : value
}.

Module SystemTrayService.

Definition enableSystemTray : async SystemTrayStatus :=
  try_catch
    (result ← invoke enable_system_tray;
     ret {| enabled := true; message := result |})
    (fun error =>
       ret {| enabled := false;
              message := VString ("启用系统托盘失败: " ++ to_string error) |}).

Definition disableSystemTray : async SystemTrayStatus :=
  try_catch
    (result ← invoke disable_system_tray;
     ret {| enabled := false; message := result |})
    (fun error =>
       ret {| enabled := false;
              message := VString ("禁用系统托盘失败: " ++ to_string error) |}).

Definition minimizeToTray : async value := invoke minimize_to_tray.

Definition restoreFromTray : async value := invoke restore_from_tray.

Definition isSystemTrayEnabled : async value := invoke is_system_tray_enabled.

Definition toggleSystemTray (enabled : bool) : async SystemTrayStatus :=
  if enabled then enableSystemTray else disableSystemTray.

Definition saveSystemTrayState (enabled : bool) : async value :=
  try_catch
    (result ← invoke (save_system_tray_state enabled);
     ret result)
    (fun error =>
       throw (VError ("保存系统托盘状态失败: " ++ to_string error))).

Definition getSystemTrayState : async value :=
  try_catch
    (invoke get_system_tray_state)
    (fun error =>
       console_write [VString "获取系统托盘状态失败，使用默认值:"; error];;
       ret (VBool true)).

Definition enableSystemTrayWithSave : async SystemTrayStatus :=
  try_catch
    (status ← enableSystemTray;
     (if enabled status
      then (_ ← saveSystemTrayState true; ret tt)
      else ret tt);;
     ret status)
    (fun error =>
       ret {| enabled := false;
              message := VString ("启用系统托盘失败: " ++ to_string error) |}).

Definition disableSystemTrayWithSave : async SystemTrayStatus :=
  try_catch
    (status ← disableSystemTray;
     (if negb (enabled status)
      then (_ ← saveSystemTrayState false; ret tt)
      else ret tt);;
     ret status)
    (fun error =>
       ret {| enabled := false;
              message := VString ("禁用系统托盘失败: " ++ to_string error) |}).

End SystemTrayService.

(** ** Antigravity service *)

Module AntigravityService.

Definition backupAndRestartAntigravity : async unit :=
  try_catch
    (console_write [VString "🚀 开始执行备份并重启 Antigravity 流程"];;
     onStatusUpdate (VString "正在关闭 Antigravity 进程...") None;;
     console_write [VString "📞 调用后端 backup_and_restart_antigravity 命令"];;
     result ← invoke backup_and_restart_antigravity;
     console_write [VString "✅ 后端命令执行成功，结果:"; result];;
     onStatusUpdate result None)
    (fun error =>
       let errorMessage := error_message error in
       console_write [VString "❌ 备份并重启失败:"; VString errorMessage];;
       console_write [VString "❌ 完整错误对象:"; error];;
       throw (VError ("备份并重启失败: " ++ errorMessage))).

Definition ensureAntigravityPath : async bool :=
  isWindows ← userAgentIsWindows;
  if negb isWindows then ret true
  else
    try_catch
      (running ← invoke is_antigravity_running;
       if falsy running
       then
         onStatusUpdate
           (VString "未检测到 Antigravity 进程，请先启动应用后再登录新账户")
           (Some true);;
         ret false
       else
         resolved ← invoke resolve_antigravity_path;
         if negb (falsy resolved) then ret true
         else
           onStatusUpdate
             (VString "未找到 Antigravity 安装路径，请选择可执行文件") None;;
           selected ← invoke plugin_dialog_open;
           if falsy selected || isArray selected
           then
             onStatusUpdate
               (VString "未选择可执行文件，已取消登录新账户") (Some true);;
             ret false
           else
             _ ← invoke (save_antigravity_path selected);
             onStatusUpdate (VString "已更新 Antigravity 安装路径") None;;
             ret true)
      (fun error =>
         let errorMessage := error_message error in
         onStatusUpdate
           (VString ("检查/更新 Antigravity 路径失败: " ++ errorMessage))
           (Some true);;
         ret false).

Definition getBackupList : async value :=
  try_catch
    (backupList ← invoke list_backups;
     (if falsy backupList
      then throw (VError "无法获取备份列表")
      else ret tt);;
     ret backupList)
    (fun error =>
       let errorMessage := error_message error in
       throw (VError ("获取备份列表失败: " ++ errorMessage))).

End AntigravityService.

(** *** Vocabulary for the error boundary of an operation *)

(** The operation resolves whatever the backend answers. *)
Definition never_rejects {A : Type} (op : async A) : Prop :=
  forall (e : env) (w : world), exists a, fst (op e w) = Resolved a.

(** A backend on which every call is rejected. *)
Definition offline : env :=
  {| backend := fun _ _ => Rejected (VString "backend offline");
     isWindows := true |}.

(** A backend on which only the persistence write is rejected. *)
Definition save_fails : env :=
  {| backend := fun _ cmd =>
       match cmd with
       | save_system_tray_state _ => Rejected (VString "disk full")
       | _ => Resolved (VString "ok")
       end;
     isWindows := true |}.

Local Close Scope string_scope.

(** ** The web platform functions the encryption provider calls

    [btoa], [atob], [TextEncoder], [TextDecoder], [escape], [unescape],
    [encodeURIComponent] and [decodeURIComponent] belong to the webview, not
    to the repository.  They are written out here after their standards
    (HTML's forgiving-base64, the Encoding standard's UTF-8 encoder and
    decoder, ECMA-262's URI functions), in arithmetic on code units and
    bytes. *)

Module Web.

(** What a JavaScript [throw] carries in this program. *)
Inductive exn : Type :=
  | InvalidCharacterError       (* DOMException of [btoa] / [atob] *)
  | URIError
  | Error (message : string).

(** The completion of a synchronous call. *)
Inductive completion (A : Type) : Type :=
  | Normal (a : A)
  | Throw (e : exn).
Arguments Normal {A} a.
Arguments Throw {A} e.

Definition is_throw {A} (c : completion A) : bool :=
  match c with Throw _ => true | Normal _ => false end.

(** *** Numbers and code units *)

(** [ToInt32] of a number that is an integer or [NaN]. *)
Definition ToInt32 (n : option Z) : Z :=
  match n with
  | None => 0
  | Some x => (x + 2147483648) mod 4294967296 - 2147483648
  end.

(** [a ^ b] *)
Definition bitxor (a b : option Z) : Z := Z.lxor (ToInt32 a) (ToInt32 b).

(** [i % n] for integers, [NaN] when [n] is zero. *)
Definition remainder (i n : Z) : option Z :=
  if n =? 0 then None else Some (Z.rem i n).

(** [s.charCodeAt(pos)]: [NaN] as a position counts as 0; out of range the
    result is [NaN]. *)
Definition charCodeAt (s : jsstring) (pos : option Z) : option Z :=
  let p := match pos with Some i => i | None => 0 end in
  if (0 <=? p) && (p <? Js.length s) then s !! Z.to_nat p else None.

(** [String.fromCharCode(n)]: [ToUint16]. *)
Definition fromCharCode (n : Z) : jsstring := [n mod 65536].

(** *** UTF-16 *)

Definition is_high_surrogate (c : Z) : bool := (0xD800 <=? c) && (c <=? 0xDBFF).
Definition is_low_surrogate (c : Z) : bool := (0xDC00 <=? c) && (c <=? 0xDFFF).

Definition surrogate_pair_value (hi lo : Z) : Z :=
  0x10000 + (hi - 0xD800) * 0x400 + (lo - 0xDC00).

(** Conversion of a string to scalar values: a surrogate that is not part of
    a pair becomes U+FFFD. *)
Fixpoint to_scalar_values (s : jsstring) : list Z :=
  match s with
  | [] => []
  | c :: r =>
      if is_high_surrogate c then
        match r with
        | d :: r' =>
            if is_low_surrogate d
            then surrogate_pair_value c d :: to_scalar_values r'
            else 0xFFFD :: to_scalar_values r
        | [] => [0xFFFD]
        end
      else if is_low_surrogate c then 0xFFFD :: to_scalar_values r
      else c :: to_scalar_values r
  end.

(** Every unit is an ASCII character. *)
Definition ascii_only (s : jsstring) : Prop := Forall (fun c => 0 <= c < 128) s.

(** No surrogate outside a pair. *)
Fixpoint well_formed (s : jsstring) : bool :=
  match s with
  | [] => true
  | c :: r =>
      if is_high_surrogate c then
        match r with
        | d :: r' => is_low_surrogate d && well_formed r'
        | [] => false
        end
      else negb (is_low_surrogate c) && well_formed r
  end.

(** The code units of a code point. *)
Definition utf16_units (cp : Z) : jsstring :=
  if cp <? 0x10000 then [cp]
  else [0xD800 + (cp - 0x10000) / 0x400; 0xDC00 + (cp - 0x10000) mod 0x400].

(** *** UTF-8: [TextEncoder.encode] and [TextDecoder.decode] *)

Definition utf8_bytes (cp : Z) : list Z :=
  if cp <? 0x80 then [cp]
  else if cp <? 0x800 then [0xC0 + cp / 64; 0x80 + cp mod 64]
  else if cp <? 0x10000
  then [0xE0 + cp / 4096; 0x80 + (cp / 64) mod 64; 0x80 + cp mod 64]
  else [0xF0 + cp / 262144; 0x80 + (cp / 4096) mod 64;
        0x80 + (cp / 64) mod 64; 0x80 + cp mod 64].

(** [new TextEncoder().encode(str)] *)
Definition TextEncoder_encode (str : jsstring) : list Z :=
  concat (map utf8_bytes (to_scalar_values str)).

(** The state of the UTF-8 decoder of the Encoding standard. *)
Record decoder : Type := {
  code_point : Z;
  bytes_seen : Z;
  bytes_needed : Z;
  lower_boundary : Z;
  upper_boundary : Z
}.

Definition decoder_start : decoder :=
  {| code_point := 0; bytes_seen := 0; bytes_needed := 0;
     lower_boundary := 0x80; upper_boundary := 0xBF |}.

(** A byte read while no sequence is open. *)
Definition decode_lead (byte : Z) : decoder * list Z :=
  if (0 <=? byte) && (byte <=? 0x7F) then (decoder_start, [byte])
  else if (0xC2 <=? byte) && (byte <=? 0xDF)
  then ({| code_point := byte mod 32; bytes_seen := 0; bytes_needed := 1;
           lower_boundary := 0x80; upper_boundary := 0xBF |}, [])
  else if (0xE0 <=? byte) && (byte <=? 0xEF)
  then ({| code_point := byte mod 16; bytes_seen := 0; bytes_needed := 2;
           lower_boundary := if byte =? 0xE0 then 0xA0 else 0x80;
           upper_boundary := if byte =? 0xED then 0x9F else 0xBF |}, [])
  else if (0xF0 <=? byte) && (byte <=? 0xF4)
  then ({| code_point := byte mod 8; bytes_seen := 0; bytes_needed := 3;
           lower_boundary := if byte =? 0xF0 then 0x90 else 0x80;
           upper_boundary := if byte =? 0xF4 then 0x8F else 0xBF |}, [])
  else (decoder_start, [0xFFFD]).

(** One byte: the new state and the code points emitted.  A byte outside the
    boundaries of an open sequence ends it with U+FFFD and is read again as
    a lead byte. *)
Definition decode_byte (st : decoder) (byte : Z) : decoder * list Z :=
  if bytes_needed st =? 0 then decode_lead byte
  else if (byte <? lower_boundary st) || (upper_boundary st <? byte)
  then let '(st', out) := decode_lead byte in (st', 0xFFFD :: out)
  else
    let cp := code_point st * 64 + byte mod 64 in
    let seen := bytes_seen st + 1 in
    if seen =? bytes_needed st
    then (decoder_start, [cp])
    else ({| code_point := cp; bytes_seen := seen;
             bytes_needed := bytes_needed st;
             lower_boundary := 0x80; upper_boundary := 0xBF |}, []).

(** The whole input; at its end an open sequence gives U+FFFD. *)
Fixpoint decode_bytes (st : decoder) (bytes : list Z) : list Z :=
  match bytes with
  | [] => if bytes_needed st =? 0 then [] else [0xFFFD]
  | byte :: rest =>
      let '(st', out) := decode_byte st byte in
      out ++ decode_bytes st' rest
  end.

(** A leading U+FEFF is not part of the output ([ignoreBOM] is false). *)
Definition strip_bom (cps : list Z) : list Z :=
  match cps with
  | c :: r => if c =? 0xFEFF then r else cps
  | [] => []
  end.

(** [new TextDecoder().decode(bytes)]: UTF-8, replacement on errors. *)
Definition TextDecoder_decode (bytes : list Z) : jsstring :=
  concat (map utf16_units (strip_bom (decode_bytes decoder_start bytes))).

(** *** Base64: [btoa] and [atob] *)

Definition byte_range (b : Z) : Prop := 0 <= b < 256.

Definition equals_sign : Z := 61.

(** The character of a 6-bit value. *)
Definition base64_char (n : Z) : Z :=
  if n <? 26 then 65 + n
  else if n <? 52 then 97 + (n - 26)
  else if n <? 62 then 48 + (n - 52)
  else if n =? 62 then 43
  else 47.

(** The 6-bit value of a character of the alphabet. *)
Definition base64_value (c : Z) : option Z :=
  if (65 <=? c) && (c <=? 90) then Some (c - 65)
  else if (97 <=? c) && (c <=? 122) then Some (c - 97 + 26)
  else if (48 <=? c) && (c <=? 57) then Some (c - 48 + 52)
  else if c =? 43 then Some 62
  else if c =? 47 then Some 63
  else None.

Fixpoint base64_encode (bytes : list Z) : jsstring :=
  match bytes with
  | [] => []
  | [a] =>
      [base64_char (a / 4); base64_char (a mod 4 * 16); equals_sign; equals_sign]
  | [a; b] =>
      [base64_char (a / 4); base64_char (a mod 4 * 16 + b / 16);
       base64_char (b mod 16 * 4); equals_sign]
  | a :: b :: c :: rest =>
      [base64_char (a / 4); base64_char (a mod 4 * 16 + b / 16);
       base64_char (b mod 16 * 4 + c / 64); base64_char (c mod 64)]
        ++ base64_encode rest
  end.

(** The 6-bit values [base64_encode] writes, padding apart. *)
Fixpoint base64_values (bytes : list Z) : list Z :=
  match bytes with
  | [] => []
  | [a] => [a / 4; a mod 4 * 16]
  | [a; b] => [a / 4; a mod 4 * 16 + b / 16; b mod 16 * 4]
  | a :: b :: c :: rest =>
      [a / 4; a mod 4 * 16 + b / 16; b mod 16 * 4 + c / 64; c mod 64]
        ++ base64_values rest
  end.

(** [btoa(data)]: refuses a code unit above U+00FF. *)
Definition btoa (data : jsstring) : completion jsstring :=
  if forallb (fun c => c <=? 255) data
  then Normal (base64_encode data)
  else Throw InvalidCharacterError.

Definition is_ascii_whitespace (c : Z) : bool :=
  (c =? 9) || (c =? 10) || (c =? 12) || (c =? 13) || (c =? 32).

(** One or two ['='] at the end are removed. *)
Fixpoint remove_padding (data : jsstring) : jsstring :=
  match data with
  | [] => []
  | c :: rest =>
      match rest with
      | [] => if c =? equals_sign then [] else [c]
      | [d] =>
          if (c =? equals_sign) && (d =? equals_sign) then []
          else c :: remove_padding rest
      | _ => c :: remove_padding rest
      end
  end.

(** Groups of four 6-bit values give three bytes; a rest of three gives two
    bytes and a rest of two gives one, the spare bits dropped. *)
Fixpoint base64_bytes (values : list Z) : list Z :=
  match values with
  | a :: b :: c :: d :: rest =>
      [a * 4 + b / 16; b mod 16 * 16 + c / 4; c mod 4 * 64 + d]
        ++ base64_bytes rest
  | [a; b; c] => [a * 4 + b / 16; b mod 16 * 16 + c / 4]
  | [a; b] => [a * 4 + b / 16]
  | _ => []
  end.

(** [atob(data)]: forgiving-base64 decode. *)
Definition atob (data : jsstring) : completion jsstring :=
  let data := filter (fun c => is_ascii_whitespace c = false) data in
  let data :=
    if Js.length data mod 4 =? 0 then remove_padding data else data in
  if Js.length data mod 4 =? 1 then Throw InvalidCharacterError
  else
    match mapM base64_value data with
    | Some values => Normal (base64_bytes values)
    | None => Throw InvalidCharacterError
    end.

(** *** The URI functions of the fallback branches *)

Definition prepend (out : jsstring) (rest : completion jsstring)
  : completion jsstring :=
  match rest with
  | Normal r => Normal (out ++ r)
  | Throw e => Throw e
  end.

Definition percent : Z := 37.

Definition hex_char (n : Z) : Z := if n <? 10 then 48 + n else 55 + n.

Definition hex_value (c : Z) : option Z :=
  if (48 <=? c) && (c <=? 57) then Some (c - 48)
  else if (65 <=? c) && (c <=? 70) then Some (c - 55)
  else if (97 <=? c) && (c <=? 102) then Some (c - 87)
  else None.

Definition is_alphanumeric (c : Z) : bool :=
  ((65 <=? c) && (c <=? 90)) || ((97 <=? c) && (c <=? 122))
  || ((48 <=? c) && (c <=? 57)).

(** [A-Z a-z 0-9 - _ . ! ~ * ' ( )] *)
Definition uri_unreserved (c : Z) : bool :=
  is_alphanumeric c
  || existsb (Z.eqb c) [45; 95; 46; 33; 126; 42; 39; 40; 41].

(** [A-Z a-z 0-9 @ * _ + - . /] *)
Definition escape_unescaped (c : Z) : bool :=
  is_alphanumeric c || existsb (Z.eqb c) [64; 42; 95; 43; 45; 46; 47].

Definition percent_octet (b : Z) : jsstring :=
  [percent; hex_char (b / 16); hex_char (b mod 16)].

(** [encodeURIComponent]: a surrogate outside a pair is a [URIError]. *)
Fixpoint encodeURIComponent_from (skip : bool) (s : jsstring)
  : completion jsstring :=
  match s with
  | [] => Normal []
  | c :: r =>
      if skip then encodeURIComponent_from false r
      else if uri_unreserved c
      then prepend [c] (encodeURIComponent_from false r)
      else if is_low_surrogate c then Throw URIError
      else if is_high_surrogate c then
        match r with
        | d :: _ =>
            if is_low_surrogate d
            then prepend
                   (concat (map percent_octet
                                (utf8_bytes (surrogate_pair_value c d))))
                   (encodeURIComponent_from true r)
            else Throw URIError
        | [] => Throw URIError
        end
      else prepend (concat (map percent_octet (utf8_bytes c)))
                   (encodeURIComponent_from false r)
  end.

Definition encodeURIComponent (s : jsstring) : completion jsstring :=
  encodeURIComponent_from false s.

(** The two hexadecimal digits at the head of [r]. *)
Definition hex_octet (r : jsstring) : option Z :=
  match r with
  | h1 :: h2 :: _ =>
      match hex_value h1, hex_value h2 with
      | Some v1, Some v2 => Some (16 * v1 + v2)
      | _, _ => None
      end
  | _ => None
  end.

(** The four hexadecimal digits after a [u] at the head of [r]. *)
Definition hex_unit (r : jsstring) : option Z :=
  match r with
  | u :: h1 :: h2 :: h3 :: h4 :: _ =>
      if u =? 117 then
        match hex_value h1, hex_value h2, hex_value h3, hex_value h4 with
        | Some v1, Some v2, Some v3, Some v4 =>
            Some (4096 * v1 + 256 * v2 + 16 * v3 + v4)
        | _, _, _, _ => None
        end
      else None
  | _ => None
  end.

(** [unescape]: [%uXXXX] and [%XX] become one code unit, anything else is
    kept.  [skip] counts the units of an escape still to pass over. *)
Fixpoint unescape_from (skip : nat) (s : jsstring) : jsstring :=
  match s with
  | [] => []
  | c :: r =>
      match skip with
      | S k => unescape_from k r
      | O =>
          if c =? percent then
            match hex_unit r with
            | Some n => n :: unescape_from 5 r
            | None =>
                match hex_octet r with
                | Some n => n :: unescape_from 2 r
                | None => c :: unescape_from 0 r
                end
            end
          else c :: unescape_from 0 r
      end
  end.

Definition unescape (s : jsstring) : jsstring := unescape_from 0 s.

(** [escape] *)
Definition escape_unit (c : Z) : jsstring :=
  if escape_unescaped c then [c]
  else if c <? 256 then percent_octet c
  else [percent; 117; hex_char (c / 4096); hex_char (c / 256 mod 16);
        hex_char (c / 16 mod 16); hex_char (c mod 16)].

Definition escape (s : jsstring) : jsstring := concat (map escape_unit s).

(** The number of leading 1 bits of an octet. *)
Definition leading_ones (b : Z) : nat :=
  if b <? 0x80 then 0
  else if b <? 0xC0 then 1
  else if b <? 0xE0 then 2
  else if b <? 0xF0 then 3
  else if b <? 0xF8 then 4
  else 5.

(** [n] escapes [%XX] at the head of [r]. *)
Fixpoint continuation_octets (n : nat) (r : jsstring) : option (list Z) :=
  match n with
  | O => Some []
  | S n' =>
      match r with
      | p :: h1 :: h2 :: r' =>
          if p =? percent then
            match hex_octet [h1; h2], continuation_octets n' r' with
            | Some b, Some bs => Some (b :: bs)
            | _, _ => None
            end
          else None
      | _ => None
      end
  end.

Definition is_scalar_value (cp : Z) : bool :=
  (0 <=? cp) && (cp <=? 0x10FFFF)
  && negb ((0xD800 <=? cp) && (cp <=? 0xDFFF)).

(** The code point of a well-formed UTF-8 sequence: the one whose encoding
    the octets are. *)
Definition utf8_value (octets : list Z) : option Z :=
  let candidate :=
    match octets with
    | [b0] => Some b0
    | [b0; b1] => Some (b0 mod 32 * 64 + b1 mod 64)
    | [b0; b1; b2] => Some ((b0 mod 16 * 64 + b1 mod 64) * 64 + b2 mod 64)
    | [b0; b1; b2; b3] =>
        Some (((b0 mod 8 * 64 + b1 mod 64) * 64 + b2 mod 64) * 64 + b3 mod 64)
    | _ => None
    end in
  match candidate with
  | Some cp =>
      if is_scalar_value cp && bool_decide (utf8_bytes cp = octets)
      then Some cp else None
  | None => None
  end.

(** [decodeURIComponent]: a malformed escape or UTF-8 sequence is a
    [URIError]. *)
Fixpoint decodeURIComponent_from (skip : nat) (s : jsstring)
  : completion jsstring :=
  match s with
  | [] => Normal []
  | c :: r =>
      match skip with
      | S k => decodeURIComponent_from k r
      | O =>
          if c =? percent then
            match hex_octet r with
            | None => Throw URIError
            | Some b =>
                let n := leading_ones b in
                match n with
                | O => prepend [b] (decodeURIComponent_from 2 r)
                | 2%nat | 3%nat | 4%nat =>
                    match continuation_octets (n - 1) (drop 2 r) with
                    | None => Throw URIError
                    | Some bs =>
                        match utf8_value (b :: bs) with
                        | None => Throw URIError
                        | Some cp =>
                            prepend (utf16_units cp)
                              (decodeURIComponent_from (2 + 3 * (n - 1)) r)
                        end
                    end
                | _ => Throw URIError
                end
            end
          else prepend [c] (decodeURIComponent_from 0 r)
      end
  end.

Definition decodeURIComponent (s : jsstring) : completion jsstring :=
  decodeURIComponent_from 0 s.

End Web.

Import Web.

(** ** Encryption provider ([encryption-provider.ts])

    The webview has [TextEncoder] and [TextDecoder], and their methods do
    not throw; inside the [try] blocks only [btoa] and [atob] can.  The
    [catch] branches are kept as the source has them. *)

Module ConfigEncryptionProvider.

Definition unicodeBase64Encode (str : jsstring) : completion jsstring :=
  let attempt :=
    let data := TextEncoder_encode str in
    let binary :=
      Js.for_upto (Js.length data)
        (fun i binary => binary ++ fromCharCode (nth (Z.to_nat i) data 0)) [] in
    btoa binary in
  match attempt with
  | Normal encoded => Normal encoded
  | Throw _ =>
      match encodeURIComponent str with
      | Normal escaped => btoa (unescape escaped)
      | Throw e => Throw e
      end
  end.

Definition unicodeBase64Decode (str : jsstring) : completion jsstring :=
  let attempt :=
    match atob str with
    | Throw e => Throw e
    | Normal binary =>
        let bytes :=
          Js.for_upto (Js.length binary)
            (fun i bytes =>
               <[Z.to_nat i := ToInt32 (charCodeAt binary (Some i)) mod 256]> bytes)
            (replicate (Z.to_nat (Js.length binary)) 0) in
        Normal (TextDecoder_decode bytes)
    end in
  match attempt with
  | Normal decoded => Normal decoded
  | Throw _ =>
      let fallback :=
        match atob str with
        | Throw e => Throw e
        | Normal binary => decodeURIComponent (escape binary)
        end in
      match fallback with
      | Normal decoded => Normal decoded
      | Throw _ => Throw (Error "Base64解码失败")
      end
  end.

(** The loop shared by [encrypt] and [decrypt]. *)
Definition xor_loop (data password : jsstring) : jsstring :=
  Js.for_upto (Js.length data)
    (fun i result =>
       result ++ fromCharCode
         (bitxor (charCodeAt data (Some i))
                 (charCodeAt password (remainder i (Js.length password)))))
    [].

Definition encrypt (data password : jsstring) : completion jsstring :=
  let result := xor_loop data password in
  unicodeBase64Encode result.

Definition decrypt (encryptedData password : jsstring) : completion jsstring :=
  let attempt :=
    match unicodeBase64Decode encryptedData with
    | Throw e => Throw e
    | Normal data => Normal (xor_loop data password)
    end in
  match attempt with
  | Normal result => Normal result
  | Throw _ => Throw (Error "解密失败：数据格式错误或密码不正确")
  end.

Record PasswordCheck : Type := {
  isValid : bool;
  message : option string
}.

Definition validatePassword (password : jsstring) : PasswordCheck :=
  if Js.falsy password || (Js.length password =? 0)
  then {| isValid := false; message := Some "请输入密码"%string |}
  else if Js.length password <? 4
  then {| isValid := false; message := Some "密码长度至少为4个字符"%string |}
  else {| isValid := true; message := None |}.

End ConfigEncryptionProvider.

(** ** Window-close handler ([hooks/useWindowClose.ts], lines 27-72)

    The listener registered for [tauri://close-requested].  Besides the
    remote calls of the tray service it acts on the window ([hide], [emit]),
    on the event ([preventDefault]) and on the module-level flag
    [shouldPreventClose]. *)

Module WindowClose.

Inductive window_op : Type :=
  | Hide                          (* [window.hide()] *)
  | Emit (event : string).        (* [window.emit(event)] *)

(** The world of the handler: the world of the services, the operations
    attempted on the window, whether the default close was prevented, and
    the flag. *)
Record hook_world : Type := {
  services : world;
  window_ops : list window_op;
  default_prevented : bool;
  shouldPreventClose : bool
}.

(** The flag starts as [false]. *)
Definition fresh : hook_world :=
  {| services := no_history; window_ops := [];
     default_prevented := false; shouldPreventClose := false |}.

(** The environment of the handler: the one of the services, and the answer
    of the window to an operation, which may depend on all that happened
    before. *)
Record hook_env : Type := {
  service_env : env;
  window : hook_world -> window_op -> outcome unit
}.

(** The event handed to the listener: whether it has a [preventDefault]. *)
Record close_event : Type := { has_preventDefault : bool }.

Definition hook (A : Type) : Type := hook_env -> hook_world -> outcome A * hook_world.

Definition hret {A} (a : A) : hook A := fun _ w => (Resolved a, w).

Definition hbind {A B} (m : hook A) (k : A -> hook B) : hook B :=
  fun e w =>
    match m e w with
    | (Resolved a, w') => k a e w'
    | (Rejected r, w') => (Rejected r, w')
    end.

Definition htry_catch {A} (body : hook A) (handler : value -> hook A) : hook A :=
  fun e w =>
    match body e w with
    | (Resolved a, w') => (Resolved a, w')
    | (Rejected r, w') => handler r e w'
    end.

(** An operation of the services, run inside the handler. *)
Definition lift {A} (m : async A) : hook A :=
  fun e w =>
    let '(r, sw) := m (service_env e) (services w) in
    (r, {| services := sw; window_ops := window_ops w;
           default_prevented := default_prevented w;
           shouldPreventClose := shouldPreventClose w |}).

(** [await window.hide()] and [await window.emit(event)] *)
Definition window_do (op : window_op) : hook unit :=
  fun e w =>
    (window e w op,
     {| services := services w; window_ops := window_ops w ++ [op];
        default_prevented := default_prevented w;
        shouldPreventClose := shouldPreventClose w |}).

(** [if (event.preventDefault) { event.preventDefault(); }] *)
Definition preventDefault (event : close_event) : hook unit :=
  fun _ w =>
    (Resolved tt,
     {| services := services w; window_ops := window_ops w;
        default_prevented := default_prevented w || has_preventDefault event;
        shouldPreventClose := shouldPreventClose w |}).

(** [shouldPreventClose = b] *)
Definition set_shouldPreventClose (b : bool) : hook unit :=
  fun _ w =>
    (Resolved tt,
     {| services := services w; window_ops := window_ops w;
        default_prevented := default_prevented w;
        shouldPreventClose := b |}).

#[global] Instance hook_ret : MRet hook := @hret.
#[global] Instance hook_bind : MBind hook := fun A B k m => hbind m k.

Local Open Scope string_scope.

Definition onCloseRequested (event : close_event) : hook unit :=
  lift (console_write [VString "🚪 收到窗口关闭请求事件"]);;
  htry_catch
    (trayEnabled ← lift SystemTrayService.isSystemTrayEnabled;
     lift (console_write [VString "📋 系统托盘状态:"; trayEnabled]);;
     if negb (falsy trayEnabled)
     then
       lift (console_write [VString "📋 系统托盘已启用，最小化窗口而不是关闭"]);;
       preventDefault event;;
       set_shouldPreventClose true;;
       window_do Hide;;
       _ ← lift SystemTrayService.minimizeToTray;
       window_do (Emit "window-minimized-to-tray");;
       lift (console_write [VString "✅ 窗口已最小化到托盘"])
     else
       lift (console_write [VString "📋 系统托盘未启用，允许关闭窗口"]);;
       set_shouldPreventClose false;;
       window_do (Emit "window-normal-close"))
    (fun error =>
       lift (console_write [VString "处理窗口关闭事件时出错:"; error]);;
       htry_catch
         (set_shouldPreventClose true;;
          window_do Hide;;
          lift (console_write [VString "📋 出错但仍尝试隐藏窗口"]))
         (fun hideError =>
            lift (console_write [VString "隐藏窗口失败:"; hideError]))).

(** *** Sample environments *)

(** A window on which every operation succeeds, over a given backend. *)
Definition willing_window (be : env) : hook_env :=
  {| service_env := be; window := fun _ _ => Resolved tt |}.

(** A backend that reports the tray as enabled or not and accepts the rest. *)
Definition tray_reported (on : bool) : env :=
  {| backend := fun _ cmd =>
       match cmd with
       | is_system_tray_enabled => Resolved (VBool on)
       | _ => Resolved (VString "ok")
       end;
     isWindows := true |}.

(** The tray enabled, but [minimize_to_tray] refused. *)
Definition minimize_refused : env :=
  {| backend := fun _ cmd =>
       match cmd with
       | is_system_tray_enabled => Resolved (VBool true)
       | minimize_to_tray => Rejected (VString "no tray icon")
       | _ => Resolved (VString "ok")
       end;
     isWindows := true |}.

Local Close Scope string_scope.

End WindowClose.

(** ** More sample backends *)

(** A backend with no backups stored: [list_backups] answers the empty list. *)
Definition no_backups : env :=
  {| backend := fun _ cmd =>
       match cmd with
       | list_backups => Resolved (VArray [])
       | _ => Resolved (VString "ok")
       end;
     isWindows := true |}.

(** A backend that accepts every call, on a machine that is not Windows. *)
Definition not_windows : env :=
  {| backend := fun _ _ => Resolved (VString "ok"); isWindows := false |}.

(** A backend whose restart succeeds with a message. *)
Definition restarts : env :=
  {| backend := fun _ _ => Resolved (VString "restarted"); isWindows := true |}.

(** * Properties *)

(** ** JavaScript string helpers *)

Section JsLemmas.
Implicit Types (s l d : jsstring) (c : Z).

Lemma lastIndexOf_lower s c : -1 <= Js.lastIndexOf s c.
Proof.
  induction s as [|x s IH]; simpl; [lia|].
  destruct (0 <=? Js.lastIndexOf s c) eqn:E; [lia|].
  destruct (x =? c); lia.
Qed.

Lemma lastIndexOf_notin s c : (c ∉ s) -> Js.lastIndexOf s c = -1.
Proof.
  induction s as [|x s IH]; intros Hn; simpl; [done|].
  apply not_elem_of_cons in Hn as [Hx Hs].
  rewrite (IH Hs). simpl.
  destruct (x =? c) eqn:E; [|done].
  apply Z.eqb_eq in E. congruence.
Qed.

Lemma lastIndexOf_app l d c :
  (c ∉ d) -> Js.lastIndexOf (l ++ c :: d) c = Z.of_nat (length l).
Proof.
  intros Hn. induction l as [|x l IH]; simpl.
  - rewrite (lastIndexOf_notin d c Hn). simpl. by rewrite Z.eqb_refl.
  - rewrite IH.
    destruct (0 <=? Z.of_nat (length l)) eqn:E; [lia|].
    apply Z.leb_gt in E. lia.
Qed.

(** [lastIndexOf] finds the last occurrence, or reports that there is none. *)
Lemma lastIndexOf_inv s c :
  (Js.lastIndexOf s c = -1 /\ c ∉ s) \/
  (exists l d, s = l ++ c :: d /\ (c ∉ d) /\
               Js.lastIndexOf s c = Z.of_nat (length l)).
Proof.
  induction s as [|x s IH].
  - left. split; [done|]. apply not_elem_of_nil.
  - destruct IH as [[Hr Hn]|(l & d & -> & Hn & Hr)].
    + destruct (decide (x = c)) as [->|Hx].
      * right. exists [], s. split; [done|]. split; [done|].
        simpl. rewrite Hr. simpl. by rewrite Z.eqb_refl.
      * left. split.
        -- simpl. rewrite Hr. simpl.
           destruct (x =? c) eqn:E; [|done].
           apply Z.eqb_eq in E. done.
        -- apply not_elem_of_cons. done.
    + right. exists (x :: l), d. split; [done|]. split; [done|].
      apply (lastIndexOf_app (x :: l) d c Hn).
Qed.

Lemma js_length_app l d : Js.length (l ++ d) = Js.length l + Js.length d.
Proof. unfold Js.length. rewrite length_app. lia. Qed.

Lemma js_length_nonneg s : 0 <= Js.length s.
Proof. unfold Js.length. lia. Qed.

Lemma substring_prefix l d :
  Js.substring (l ++ d) 0 (Js.length l) = l.
Proof.
  unfold Js.substring, Js.clamp. rewrite js_length_app.
  pose proof (js_length_nonneg l). pose proof (js_length_nonneg d).
  replace (Z.min (Z.max 0 0) (Js.length l + Js.length d)) with 0 by lia.
  replace (Z.min (Z.max (Js.length l) 0) (Js.length l + Js.length d))
    with (Js.length l) by lia.
  replace (Z.min 0 (Js.length l)) with 0 by lia.
  replace (Z.max 0 (Js.length l) - 0) with (Js.length l) by lia.
  change (Z.to_nat 0) with 0%nat. rewrite drop_0.
  unfold Js.length. rewrite Nat2Z.id. by rewrite take_app_length.
Qed.

Lemma substring_from_suffix l d :
  Js.substring_from (l ++ d) (Js.length l) = d.
Proof.
  unfold Js.substring_from, Js.substring, Js.clamp. rewrite js_length_app.
  pose proof (js_length_nonneg l). pose proof (js_length_nonneg d).
  replace (Z.min (Z.max (Js.length l) 0) (Js.length l + Js.length d))
    with (Js.length l) by lia.
  replace (Z.min (Z.max (Js.length l + Js.length d) 0)
                 (Js.length l + Js.length d))
    with (Js.length l + Js.length d) by lia.
  replace (Z.min (Js.length l) (Js.length l + Js.length d))
    with (Js.length l) by lia.
  replace (Z.max (Js.length l) (Js.length l + Js.length d) - Js.length l)
    with (Js.length d) by lia.
  unfold Js.length. rewrite !Nat2Z.id.
  rewrite drop_app_length. by rewrite firstn_all.
Qed.

Lemma charAt_first c s : Js.charAt (c :: s) 0 = [c].
Proof.
  unfold Js.charAt. pose proof (js_length_nonneg s).
  unfold Js.length in *. simpl length.
  destruct (0 <? Z.of_nat (S (length s))) eqn:E; [done|].
  apply Z.ltb_ge in E. lia.
Qed.

Lemma charAt_last s c : Js.charAt (s ++ [c]) (Js.length (s ++ [c]) - 1) = [c].
Proof.
  unfold Js.charAt. rewrite js_length_app.
  replace (Js.length s + Js.length [c] - 1) with (Js.length s)
    by (unfold Js.length; simpl; lia).
  pose proof (js_length_nonneg s).
  destruct (0 <=? Js.length s) eqn:E1; [|apply Z.leb_gt in E1; lia].
  destruct (Js.length s <? Js.length s + Js.length [c]) eqn:E2;
    [|apply Z.ltb_ge in E2; unfold Js.length in E2; simpl in E2; lia].
  simpl. unfold Js.length. rewrite Nat2Z.id.
  by rewrite list_lookup_middle.
Qed.

Lemma for_upto_append_const (n : Z) c :
  Js.for_upto n (fun _ acc => acc ++ [c]) [] = replicate (Z.to_nat n) c.
Proof.
  unfold Js.for_upto. generalize (Z.to_nat n) as k. intros k.
  enough (forall start acc,
    fold_left (fun a (_ : nat) => a ++ [c]) (seq start k) acc
    = acc ++ replicate k c) as H by apply (H 0%nat []).
  induction k as [|k IH]; intros start acc; simpl.
  - by rewrite app_nil_r.
  - rewrite IH. by rewrite <- app_assoc.
Qed.
End JsLemmas.

(** ** Masking utility *)

Section Masking.
Implicit Types (email s l d dom mid : jsstring) (a b : Z).

Lemma maskUsername_no_at s : (at_sign ∉ s) -> maskUsername s = s.
Proof.
  intros Hn. unfold maskUsername. destruct (Js.falsy s); [done|].
  by rewrite (lastIndexOf_notin s at_sign Hn).
Qed.

Lemma maskUsername_at_first d :
  (at_sign ∉ d) -> maskUsername (at_sign :: d) = at_sign :: d.
Proof.
  intros Hn. unfold maskUsername. simpl Js.falsy. cbv iota.
  pose proof (lastIndexOf_app [] d at_sign Hn) as E. simpl app in E.
  by rewrite E.
Qed.

Lemma maskUsername_at_final l : maskUsername (l ++ [at_sign]) = l ++ [at_sign].
Proof.
  unfold maskUsername. destruct (Js.falsy _); [done|].
  rewrite (lastIndexOf_app l [] at_sign) by apply not_elem_of_nil.
  rewrite js_length_app.
  replace (Z.of_nat (length l) >=? Js.length l + Js.length [at_sign] - 1)
    with true; [by rewrite orb_true_r|].
  symmetry. apply Z.geb_le. unfold Js.length. simpl. lia.
Qed.

Lemma maskUsername_short l d :
  (at_sign ∉ d) -> (length l <= 2)%nat ->
  maskUsername (l ++ at_sign :: d) = l ++ at_sign :: d.
Proof.
  intros Hn Hl. unfold maskUsername. destruct (Js.falsy _); [done|].
  rewrite (lastIndexOf_app l d at_sign Hn).
  destruct (_ || _); [done|].
  change (Z.of_nat (length l)) with (Js.length l).
  rewrite substring_prefix.
  replace (Js.length l <=? 2) with true; [done|].
  symmetry. apply Z.leb_le. unfold Js.length. lia.
Qed.

Lemma maskUsername_long a mid b dom :
  mid ≠ [] -> dom ≠ [] -> (at_sign ∉ dom) ->
  maskUsername (a :: mid ++ b :: at_sign :: dom)
  = a :: replicate (length mid) star ++ b :: at_sign :: dom.
Proof.
  intros Hmid Hdom Hn.
  assert (0 < length mid)%nat as Lm by (destruct mid; [done|simpl; lia]).
  assert (0 < length dom)%nat as Ld by (destruct dom; [done|simpl; lia]).
  set (loc := a :: mid ++ [b]).
  assert (a :: mid ++ b :: at_sign :: dom = loc ++ at_sign :: dom) as ->.
  { unfold loc. simpl. f_equal. by rewrite <- app_assoc. }
  assert (Js.length loc = Z.of_nat (length mid) + 2) as Lloc.
  { unfold loc, Js.length. simpl. rewrite length_app. simpl. lia. }
  unfold maskUsername.
  assert (Js.falsy (loc ++ at_sign :: dom) = false) as -> by done.
  rewrite (lastIndexOf_app loc dom at_sign Hn).
  change (Z.of_nat (length loc)) with (Js.length loc).
  rewrite js_length_app.
  assert (((Js.length loc <=? 0)
            || (Js.length loc >=? Js.length loc + Js.length (at_sign :: dom) - 1))
          = false) as ->.
  { apply orb_false_iff. split; [apply Z.leb_gt; lia|].
    rewrite Z.geb_leb. apply Z.leb_gt. unfold Js.length at 3. simpl length. lia. }
  rewrite substring_prefix, substring_from_suffix.
  assert ((Js.length loc <=? 2) = false) as -> by (apply Z.leb_gt; lia).
  assert ((Js.length loc =? 2) = false) as -> by (apply Z.eqb_neq; lia).
  rewrite for_upto_append_const.
  replace (Z.to_nat (Js.length loc - 2)) with (length mid) by lia.
  unfold loc at 1. rewrite charAt_first.
  unfold loc.
  rewrite (charAt_last (a :: mid) b
           : Js.charAt (a :: mid ++ [b]) (Js.length (a :: mid ++ [b]) - 1) = [b]).
  done.
Qed.

Lemma maskBackupFilename_eq s : maskBackupFilename s = maskUsername s.
Proof. unfold maskBackupFilename, maskUsername. by destruct (Js.falsy s). Qed.
End Masking.

(** Either the input comes back unchanged, or it has the shape
    [a :: mid ++ b :: '@' :: dom] and only [mid] is overwritten. *)
Lemma maskUsername_cases (s : jsstring) :
  maskUsername s = s \/
  exists a mid b dom,
    s = a :: mid ++ b :: at_sign :: dom /\ mid ≠ [] /\ dom ≠ [] /\
    (at_sign ∉ dom) /\
    maskUsername s = a :: replicate (length mid) star ++ b :: at_sign :: dom.
Proof.
  destruct (lastIndexOf_inv s at_sign) as [[_ Hn]|(l & d & -> & Hn & _)].
  { left. by apply maskUsername_no_at. }
  destruct d as [|d0 d].
  { left. apply maskUsername_at_final. }
  destruct (decide (length l <= 2)%nat) as [Hl|Hl].
  { left. by apply maskUsername_short. }
  destruct l as [|a l]; [simpl in Hl; lia|].
  destruct (exists_last (l := l)) as (mid & b & ->).
  { intros ->. simpl in Hl. lia. }
  assert (mid ≠ []) as Hmid.
  { intros ->. simpl in Hl. lia. }
  right. exists a, mid, b, (d0 :: d).
  assert ((a :: mid ++ [b]) ++ at_sign :: d0 :: d
          = a :: mid ++ b :: at_sign :: d0 :: d) as E.
  { simpl. f_equal. by rewrite <- app_assoc. }
  rewrite E. repeat split; try done.
  by apply maskUsername_long.
Qed.

(** C7. When the local part before the last ['@'] has more than two
    characters ([a], a non-empty middle, [b]) and that ['@'] is neither the
    first nor the last character, [maskUsername] returns [a], one ['*'] per
    middle character (local length minus two), [b], and the domain part
    unchanged.  When the input has no ['@'], or its last ['@'] is the first
    or the final character, the input is returned unchanged. *)
Theorem maskUsername_masks_long_local_parts (email : jsstring) :
  (forall a mid b dom,
      email = a :: mid ++ b :: at_sign :: dom ->
      mid ≠ [] -> dom ≠ [] -> (at_sign ∉ dom) ->
      maskUsername email
      = [a] ++ replicate (Z.to_nat (Js.length (a :: mid ++ [b]) - 2)) star
            ++ [b] ++ at_sign :: dom) /\
  ((at_sign ∉ email) -> maskUsername email = email) /\
  (forall dom, email = at_sign :: dom -> (at_sign ∉ dom) ->
               maskUsername email = email) /\
  (forall l, email = l ++ [at_sign] -> maskUsername email = email).
Proof.
  repeat split.
  - intros a mid b dom -> Hmid Hdom Hn.
    rewrite (maskUsername_long a mid b dom Hmid Hdom Hn).
    replace (Z.to_nat (Js.length (a :: mid ++ [b]) - 2)) with (length mid);
      [done|].
    unfold Js.length. simpl. rewrite length_app. simpl. lia.
  - apply maskUsername_no_at.
  - intros dom -> Hn. by apply maskUsername_at_first.
  - intros l ->. apply maskUsername_at_final.
Qed.

Lemma maskUsername_masks_long_local_parts_witness :
  maskUsername (Js.lit "abcd@x.com") = Js.lit "a**d@x.com".
Proof.
  apply (proj1 (maskUsername_masks_long_local_parts (Js.lit "abcd@x.com"))
           97 [98; 99] 100 (Js.lit "x.com")).
  - reflexivity.
  - discriminate.
  - discriminate.
  - vm_compute. intros H. repeat (apply elem_of_cons in H as [H|H]; [discriminate H|]).
    by apply elem_of_nil in H.
Defined.

(** C2. On an input whose local part has exactly two characters the code
    returns the input unchanged (the [<= 2] test comes first and makes the
    [=== 2] branch dead); in particular ["ab@b.com"] is not masked to
    ["a*@b.com"]. *)
Theorem maskUsername_two_char_local_part_unchanged :
  maskUsername (Js.lit "ab@b.com") = Js.lit "ab@b.com" /\
  maskUsername (Js.lit "ab@b.com") <> Js.lit "a*@b.com".
Proof. split; [reflexivity | discriminate]. Qed.

(** The same for every two-character local part. *)
Lemma maskUsername_local2 (a b : Z) (dom : jsstring) :
  (at_sign ∉ dom) ->
  maskUsername (a :: b :: at_sign :: dom) = a :: b :: at_sign :: dom.
Proof. intros Hn. apply (maskUsername_short [a; b] dom Hn). simpl. lia. Qed.

(** C10. [maskUsername] preserves the length, leaves the last ['@'] where it
    is and everything from it onward unchanged, and is idempotent;
    [maskBackupFilename] is the same function. *)
Theorem maskUsername_length_preserving_idempotent (s : jsstring) :
  Js.length (maskUsername s) = Js.length s /\
  Js.lastIndexOf (maskUsername s) at_sign = Js.lastIndexOf s at_sign /\
  Js.substring_from (maskUsername s) (Js.lastIndexOf s at_sign)
  = Js.substring_from s (Js.lastIndexOf s at_sign) /\
  maskUsername (maskUsername s) = maskUsername s /\
  maskBackupFilename s = maskUsername s.
Proof.
  destruct (maskUsername_cases s)
    as [E|(a & mid & b & dom & -> & Hmid & Hdom & Hn & E)].
  { rewrite maskBackupFilename_eq, E. repeat split; done. }
  rewrite maskBackupFilename_eq, E.
  set (stars := replicate (length mid) star).
  assert (length stars = length mid) as Ls by apply length_replicate.
  assert (forall m, a :: m ++ b :: at_sign :: dom
                    = (a :: m ++ [b]) ++ at_sign :: dom) as Sh.
  { intros m. simpl. f_equal. by rewrite <- app_assoc. }
  assert (forall m, length (a :: m ++ [b]) = S (S (length m))) as Lsh.
  { intros m. simpl. rewrite length_app. simpl. lia. }
  repeat split.
  - unfold Js.length. simpl. rewrite !length_app. simpl. lia.
  - rewrite !Sh, !lastIndexOf_app by done. rewrite !Lsh. lia.
  - rewrite (Sh mid), (Sh stars), lastIndexOf_app by done.
    change (Z.of_nat (length (a :: mid ++ [b]))) with (Js.length (a :: mid ++ [b])).
    rewrite substring_from_suffix.
    replace (Js.length (a :: mid ++ [b])) with (Js.length (a :: stars ++ [b]))
      by (unfold Js.length; rewrite !Lsh; lia).
    by rewrite substring_from_suffix.
  - rewrite maskUsername_long; try done.
    + by rewrite Ls.
    + intros Hs. rewrite Hs in Ls. simpl in Ls. destruct mid; [done|simpl in Ls; lia].
Qed.

(** ** Tray and Antigravity services *)

Ltac async_unfold :=
  unfold mbind, async_bind, mret, async_ret, bind, try_catch, invoke, ret,
    throw, console_write, onStatusUpdate, userAgentIsWindows in *.

Section Services.
Import SystemTrayService AntigravityService.
Local Open Scope string_scope.
Implicit Types (e : env) (w : world) (reason : value).

Lemma enableSystemTray_resolves : never_rejects enableSystemTray.
Proof.
  intros e w. unfold enableSystemTray. async_unfold.
  destruct (backend e (calls w) enable_system_tray); simpl; eauto.
Qed.

Lemma disableSystemTray_resolves : never_rejects disableSystemTray.
Proof.
  intros e w. unfold disableSystemTray. async_unfold.
  destruct (backend e (calls w) disable_system_tray); simpl; eauto.
Qed.

Lemma toggleSystemTray_resolves b : never_rejects (toggleSystemTray b).
Proof.
  destruct b; [apply enableSystemTray_resolves|apply disableSystemTray_resolves].
Qed.

Lemma getSystemTrayState_resolves : never_rejects getSystemTrayState.
Proof.
  intros e w. unfold getSystemTrayState. async_unfold.
  destruct (backend e (calls w) get_system_tray_state); simpl; eauto.
Qed.

Lemma enableSystemTrayWithSave_resolves : never_rejects enableSystemTrayWithSave.
Proof.
  intros e w. unfold enableSystemTrayWithSave, enableSystemTray,
    saveSystemTrayState. async_unfold. simpl.
  destruct (backend e (calls w) enable_system_tray); simpl; eauto.
  destruct (backend e _ (save_system_tray_state true)); simpl; eauto.
Qed.

Lemma disableSystemTrayWithSave_resolves : never_rejects disableSystemTrayWithSave.
Proof.
  intros e w. unfold disableSystemTrayWithSave, disableSystemTray,
    saveSystemTrayState. async_unfold. simpl.
  destruct (backend e (calls w) disable_system_tray); simpl;
    destruct (backend e _ (save_system_tray_state false)); simpl; eauto.
Qed.

Lemma ensureAntigravityPath_resolves : never_rejects ensureAntigravityPath.
Proof.
  intros e w. unfold ensureAntigravityPath. async_unfold. simpl.
  destruct (isWindows e); simpl; eauto.
  destruct (backend e (calls w) is_antigravity_running) as [running|];
    simpl; eauto.
  destruct (falsy running); simpl; eauto.
  destruct (backend e _ resolve_antigravity_path) as [resolved|]; simpl; eauto.
  destruct (falsy resolved); simpl; eauto.
  destruct (backend e _ plugin_dialog_open) as [selected|]; simpl; eauto.
  destruct (falsy selected || isArray selected); simpl; eauto.
  destruct (backend e _ (save_antigravity_path selected)); simpl; eauto.
Qed.

Lemma saveSystemTrayState_rethrows e w b reason :
  backend e (calls w) (save_system_tray_state b) = Rejected reason ->
  fst (saveSystemTrayState b e w)
  = Rejected (VError ("保存系统托盘状态失败: " ++ to_string reason)).
Proof. intros H. unfold saveSystemTrayState. async_unfold. by rewrite H. Qed.

Lemma getBackupList_rethrows e w reason :
  backend e (calls w) list_backups = Rejected reason ->
  fst (getBackupList e w)
  = Rejected (VError ("获取备份列表失败: " ++ error_message reason)).
Proof. intros H. unfold getBackupList. async_unfold. by rewrite H. Qed.

Lemma backupAndRestartAntigravity_rethrows e w reason :
  backend e (calls w) backup_and_restart_antigravity = Rejected reason ->
  fst (backupAndRestartAntigravity e w)
  = Rejected (VError ("备份并重启失败: " ++ error_message reason)).
Proof.
  intros H. unfold backupAndRestartAntigravity. async_unfold. simpl.
  by rewrite H.
Qed.
End Services.

(** C3, as the code has it.  The operations that shape a status or a default
    ([enableSystemTray], [disableSystemTray], [toggleSystemTray],
    [getSystemTrayState], the two [...WithSave] compositions and
    [ensureAntigravityPath]) resolve whatever the backend answers.
    [minimizeToTray], [restoreFromTray] and [isSystemTrayEnabled] hand the
    backend's outcome on as it is, a rejection included.
    [saveSystemTrayState], [getBackupList] and [backupAndRestartAntigravity]
    catch a rejection and throw a new [Error] that wraps its text. *)
Theorem service_error_boundaries :
  (never_rejects SystemTrayService.enableSystemTray /\
   never_rejects SystemTrayService.disableSystemTray /\
   (forall b, never_rejects (SystemTrayService.toggleSystemTray b)) /\
   never_rejects SystemTrayService.getSystemTrayState /\
   never_rejects SystemTrayService.enableSystemTrayWithSave /\
   never_rejects SystemTrayService.disableSystemTrayWithSave /\
   never_rejects AntigravityService.ensureAntigravityPath) /\
  (forall e w,
      fst (SystemTrayService.minimizeToTray e w)
      = backend e (calls w) minimize_to_tray /\
      fst (SystemTrayService.restoreFromTray e w)
      = backend e (calls w) restore_from_tray /\
      fst (SystemTrayService.isSystemTrayEnabled e w)
      = backend e (calls w) is_system_tray_enabled) /\
  (forall e w reason,
      (forall b,
          backend e (calls w) (save_system_tray_state b) = Rejected reason ->
          fst (SystemTrayService.saveSystemTrayState b e w)
          = Rejected (VError ("保存系统托盘状态失败: " ++ to_string reason))) /\
      (backend e (calls w) list_backups = Rejected reason ->
       fst (AntigravityService.getBackupList e w)
       = Rejected (VError ("获取备份列表失败: " ++ error_message reason))) /\
      (backend e (calls w) backup_and_restart_antigravity = Rejected reason ->
       fst (AntigravityService.backupAndRestartAntigravity e w)
       = Rejected (VError ("备份并重启失败: " ++ error_message reason))))%string.
Proof.
  split; [|split].
  - repeat split.
    + apply enableSystemTray_resolves.
    + apply disableSystemTray_resolves.
    + apply toggleSystemTray_resolves.
    + apply getSystemTrayState_resolves.
    + apply enableSystemTrayWithSave_resolves.
    + apply disableSystemTrayWithSave_resolves.
    + apply ensureAntigravityPath_resolves.
  - intros e w. repeat split.
  - intros e w reason. repeat split.
    + intros b. apply saveSystemTrayState_rethrows.
    + apply getBackupList_rethrows.
    + apply backupAndRestartAntigravity_rethrows.
Qed.

Lemma service_error_boundaries_witness :
  fst (AntigravityService.getBackupList offline no_history)
  = Rejected (VError "获取备份列表失败: backend offline").
Proof.
  apply (proj1 (proj2 (proj2 (proj2 service_error_boundaries)
                         offline no_history (VString "backend offline")))).
  reflexivity.
Defined.

(** C3 as stated fails: with the backend rejecting, [minimizeToTray],
    [saveSystemTrayState] and [getBackupList] all reject. *)
Lemma backend_rejection_escapes :
  fst (SystemTrayService.minimizeToTray offline no_history)
  = Rejected (VString "backend offline") /\
  fst (SystemTrayService.saveSystemTrayState true offline no_history)
  = Rejected (VError "保存系统托盘状态失败: backend offline") /\
  fst (AntigravityService.getBackupList offline no_history)
  = Rejected (VError "获取备份列表失败: backend offline") /\
  ~ never_rejects SystemTrayService.minimizeToTray.
Proof.
  repeat split.
  intros H. destruct (H offline no_history) as [a Ha]. discriminate Ha.
Qed.

(** C4, as the code has it.  When the toggle resolves and the persistence
    write that follows is rejected, the composed operation makes exactly
    these two calls (nothing undoes the toggle) and resolves to the failure
    status: [enabled = false] and a message wrapping the persistence error,
    for enabling as for disabling. *)
Theorem tray_toggle_with_save_persistence_failure (e : env) (w : world) :
  (forall r reason,
      backend e (calls w) enable_system_tray = Resolved r ->
      backend e (calls w ++ [enable_system_tray]) (save_system_tray_state true)
      = Rejected reason ->
      SystemTrayService.enableSystemTrayWithSave e w
      = (Resolved
           {| enabled := false;
              message := VString ("启用系统托盘失败: Error: 保存系统托盘状态失败: "
                                    ++ to_string reason) |},
         {| calls := calls w ++ [enable_system_tray; save_system_tray_state true];
            console := console w;
            status_updates := status_updates w |})) /\
  (forall r reason,
      backend e (calls w) disable_system_tray = Resolved r ->
      backend e (calls w ++ [disable_system_tray]) (save_system_tray_state false)
      = Rejected reason ->
      SystemTrayService.disableSystemTrayWithSave e w
      = (Resolved
           {| enabled := false;
              message := VString ("禁用系统托盘失败: Error: 保存系统托盘状态失败: "
                                    ++ to_string reason) |},
         {| calls := calls w ++ [disable_system_tray; save_system_tray_state false];
            console := console w;
            status_updates := status_updates w |}))%string.
Proof.
  split; intros r reason Ht Hs.
  - unfold SystemTrayService.enableSystemTrayWithSave,
      SystemTrayService.enableSystemTray, SystemTrayService.saveSystemTrayState.
    async_unfold. simpl. rewrite Ht. simpl. rewrite Hs. simpl.
    by rewrite <- app_assoc.
  - unfold SystemTrayService.disableSystemTrayWithSave,
      SystemTrayService.disableSystemTray, SystemTrayService.saveSystemTrayState.
    async_unfold. simpl. rewrite Ht. simpl. rewrite Hs. simpl.
    by rewrite <- app_assoc.
Qed.

Lemma tray_toggle_with_save_persistence_failure_witness :
  SystemTrayService.enableSystemTrayWithSave save_fails no_history
  = (Resolved
       {| enabled := false;
          message :=
            VString "启用系统托盘失败: Error: 保存系统托盘状态失败: disk full" |},
     {| calls := [enable_system_tray; save_system_tray_state true];
        console := [];
        status_updates := [] |}).
Proof.
  apply (proj1 (tray_toggle_with_save_persistence_failure save_fails no_history)
           (VString "ok") (VString "disk full")); reflexivity.
Defined.

(** C4 as stated fails for enabling: the tray toggle succeeded, the write
    failed, and the status returned says [enabled = false]. *)
Lemma enableSystemTrayWithSave_reports_disabled :
  backend save_fails [] enable_system_tray = Resolved (VString "ok") /\
  fst (SystemTrayService.enableSystemTray save_fails no_history)
  = Resolved {| enabled := true; message := VString "ok" |} /\
  (exists st,
      fst (SystemTrayService.enableSystemTrayWithSave save_fails no_history)
      = Resolved st /\ enabled st = false).
Proof.
  split; [reflexivity|]. split; [reflexivity|].
  eexists. split; reflexivity.
Qed.

(** C8. When the [get_system_tray_state] call is rejected,
    [getSystemTrayState] resolves to [true]; when it resolves, its value is
    returned as it is. *)
Theorem getSystemTrayState_defaults_to_true (e : env) (w : world) :
  (forall reason,
      backend e (calls w) get_system_tray_state = Rejected reason ->
      fst (SystemTrayService.getSystemTrayState e w) = Resolved (VBool true)) /\
  (forall v,
      backend e (calls w) get_system_tray_state = Resolved v ->
      fst (SystemTrayService.getSystemTrayState e w) = Resolved v).
Proof.
  split; intros x H; unfold SystemTrayService.getSystemTrayState;
    async_unfold; by rewrite H.
Qed.

Lemma getSystemTrayState_defaults_to_true_witness :
  fst (SystemTrayService.getSystemTrayState offline no_history)
  = Resolved (VBool true).
Proof.
  apply (proj1 (getSystemTrayState_defaults_to_true offline no_history)
           (VString "backend offline")).
  reflexivity.
Defined.

(** ** Encryption provider *)

Section Provider.
Import ConfigEncryptionProvider.
Implicit Types (input password data t p : jsstring).

(** The first attempt of [unicodeBase64Decode] fails only in [atob], and
    then the second attempt fails in [atob] again. *)
Lemma unicodeBase64Decode_cases input :
  (exists binary decoded,
      atob input = Normal binary /\
      unicodeBase64Decode input = Normal decoded) \/
  (is_throw (atob input) = true /\
   unicodeBase64Decode input = Throw (Error "Base64解码失败")).
Proof.
  unfold unicodeBase64Decode.
  destruct (atob input) as [binary|e]; [left|right]; eauto.
Qed.

Lemma decrypt_cases input password :
  (exists data,
      unicodeBase64Decode input = Normal data /\
      decrypt input password = Normal (xor_loop data password)) \/
  (is_throw (unicodeBase64Decode input) = true /\
   decrypt input password
   = Throw (Error "解密失败：数据格式错误或密码不正确")).
Proof.
  unfold decrypt.
  destruct (unicodeBase64Decode input) as [data|e]; [left|right]; eauto.
Qed.
End Provider.

(** C5. [decrypt] throws exactly when the Base64 stage fails, which is
    exactly when [atob] refuses the input, and what it throws is then its own
    error; on every input [atob] accepts it returns a string for every
    password, the XOR of the decoded text with that password. *)
Theorem decrypt_throws_iff_base64_fails (input password : jsstring) :
  (is_throw (ConfigEncryptionProvider.decrypt input password) = true <->
   is_throw (ConfigEncryptionProvider.unicodeBase64Decode input) = true) /\
  (is_throw (ConfigEncryptionProvider.unicodeBase64Decode input) = true <->
   is_throw (atob input) = true) /\
  (is_throw (ConfigEncryptionProvider.decrypt input password) = true ->
   ConfigEncryptionProvider.decrypt input password
   = Throw (Error "解密失败：数据格式错误或密码不正确")) /\
  (forall binary,
      atob input = Normal binary ->
      exists data,
        ConfigEncryptionProvider.unicodeBase64Decode input = Normal data /\
        ConfigEncryptionProvider.decrypt input password
        = Normal (ConfigEncryptionProvider.xor_loop data password)).
Proof.
  destruct (unicodeBase64Decode_cases input)
    as [(binary & decoded & Ha & Hu)|[Ha Hu]];
    destruct (decrypt_cases input password) as [(data & Hd & Hr)|[Hd Hr]];
    rewrite Hu in Hd; simpl in Hd; try discriminate Hd.
  - rewrite Hr, Hu, Ha. simpl. repeat split; try done.
    intros b _. exists decoded. split; [done|congruence].
  - rewrite Hr, Hu. simpl. rewrite Ha. repeat split; try done.
    intros b Hb. destruct (atob input); [discriminate Ha|discriminate Hb].
Qed.

Lemma decrypt_throws_iff_base64_fails_witness :
  exists data,
    ConfigEncryptionProvider.unicodeBase64Decode (Js.lit "aGVsbG8=") = Normal data /\
    ConfigEncryptionProvider.decrypt (Js.lit "aGVsbG8=") (Js.lit "wrong")
    = Normal (ConfigEncryptionProvider.xor_loop data (Js.lit "wrong")).
Proof.
  apply (proj2 (proj2 (proj2
           (decrypt_throws_iff_base64_fails (Js.lit "aGVsbG8=") (Js.lit "wrong"))))
           (Js.lit "hello")).
  reflexivity.
Defined.

(** A wrong password gives another text, not an error. *)
Example decrypt_wrong_password :
  ConfigEncryptionProvider.encrypt (Js.lit "hello") (Js.lit "pass")
  = Normal (Js.lit "GAQfHx8=") /\
  ConfigEncryptionProvider.decrypt (Js.lit "GAQfHx8=") (Js.lit "pass")
  = Normal (Js.lit "hello") /\
  ConfigEncryptionProvider.decrypt (Js.lit "GAQfHx8=") (Js.lit "word")
  = Normal [111; 107; 109; 123; 104].
Proof. repeat split; vm_compute; reflexivity. Qed.

(** C6. [validatePassword] answers invalid exactly for the empty password
    and the passwords of fewer than four code units, and valid for every
    password of at least four. *)
Theorem validatePassword_invalid_iff_short (p : jsstring) :
  (ConfigEncryptionProvider.isValid (ConfigEncryptionProvider.validatePassword p)
   = false <-> p = [] \/ Js.length p < 4) /\
  (4 <= Js.length p ->
   ConfigEncryptionProvider.isValid (ConfigEncryptionProvider.validatePassword p)
   = true).
Proof.
  unfold ConfigEncryptionProvider.validatePassword.
  pose proof (js_length_nonneg p) as Hl.
  destruct p as [|c p].
  { simpl. split; [split; [by left|done]|]. unfold Js.length. simpl. lia. }
  assert ((Js.length (c :: p) =? 0) = false) as ->.
  { apply Z.eqb_neq. unfold Js.length. simpl. lia. }
  simpl Js.falsy. simpl orb. cbv iota.
  destruct (Z.ltb_spec (Js.length (c :: p)) 4) as [H|H]; simpl.
  - split; [split; [by right|done]|lia].
  - split; [split; [done|intros [?|?]; [done|lia]]|done].
Qed.

Lemma validatePassword_invalid_iff_short_witness :
  ConfigEncryptionProvider.isValid
    (ConfigEncryptionProvider.validatePassword (Js.lit "abcd")) = true.
Proof.
  apply (proj2 (validatePassword_invalid_iff_short (Js.lit "abcd"))).
  vm_compute. discriminate.
Defined.

(** C1 on the code.  With the password ["密码密码"] the one-character text
    ["能"] is XORed into a lone high surrogate (0x80FD xor 0x5BC6 = 0xDB3B);
    [TextEncoder] writes it as U+FFFD, and [decrypt] returns U+A43B.  With
    the password ["pass"] a text starting with U+FE8F is XORed into a leading
    U+FEFF, which [TextDecoder] drops, and [decrypt] returns a text one
    character short and out of step with the password. *)
Theorem encrypt_decrypt_round_trip_lost :
  ConfigEncryptionProvider.encrypt [0x80FD] [0x5BC6; 0x7801; 0x5BC6; 0x7801]
  = Normal (Js.lit "77+9") /\
  ConfigEncryptionProvider.decrypt (Js.lit "77+9") [0x5BC6; 0x7801; 0x5BC6; 0x7801]
  = Normal [0xA43B] /\
  ConfigEncryptionProvider.encrypt (0xFE8F :: Js.lit "{}") (Js.lit "pass")
  = Normal (Js.lit "77u/Gg4=") /\
  ConfigEncryptionProvider.decrypt (Js.lit "77u/Gg4=") (Js.lit "pass")
  = Normal (Js.lit "jo").
Proof. repeat split; vm_compute; reflexivity. Qed.

(** ** The loops of the provider in closed form *)

Section Loops.
Implicit Types (s data password binary : jsstring).

(** A loop that appends one element per index collects them in order. *)
Lemma for_upto_collect {A : Type} (n : nat) (g : Z -> A) :
  Js.for_upto (Z.of_nat n) (fun i acc => acc ++ [g i]) []
  = map (fun k => g (Z.of_nat k)) (seq 0 n).
Proof.
  unfold Js.for_upto. rewrite Nat2Z.id.
  enough (forall start acc,
    fold_left (fun a i => a ++ [g (Z.of_nat i)]) (seq start n) acc
    = acc ++ map (fun k => g (Z.of_nat k)) (seq start n)) as H
    by apply (H 0%nat []).
  induction n as [|n IH]; intros start acc; simpl.
  - by rewrite app_nil_r.
  - rewrite IH. by rewrite <- app_assoc.
Qed.

(** A loop that stores one element per index overwrites exactly the
    indices it visits. *)
Lemma fold_insert_lookup {A : Type} (g : nat -> A) (n start : nat)
      (acc : list A) (j : nat) :
  fold_left (fun a i => <[i := g i]> a) (seq start n) acc !! j
  = if decide (start <= j < start + n)%nat
    then (fun _ => g j) <$> acc !! j
    else acc !! j.
Proof.
  revert start acc. induction n as [|n IH]; intros start acc; simpl.
  - destruct (decide _); [lia|done].
  - rewrite IH.
    destruct (decide (S start <= j < S start + n)%nat) as [H1|H1];
      destruct (decide (start <= j < start + S n)%nat) as [H2|H2];
      try lia.
    + rewrite list_lookup_insert_ne by lia. done.
    + assert (j = start) as -> by lia.
      destruct (decide (start < length acc)%nat) as [Hl|Hl].
      * rewrite list_lookup_insert_eq by done.
        destruct (lookup_lt_is_Some_2 acc start Hl) as [x ->]. done.
      * rewrite list_insert_ge by lia.
        rewrite (lookup_ge_None_2 acc start) by lia. done.
    + rewrite list_lookup_insert_ne by lia. done.
Qed.

Lemma charCodeAt_lookup s (k : nat) :
  charCodeAt s (Some (Z.of_nat k)) = s !! k.
Proof.
  unfold charCodeAt, Js.length. rewrite Nat2Z.id.
  destruct (decide (k < length s)%nat) as [H|H].
  - replace ((0 <=? Z.of_nat k) && (Z.of_nat k <? Z.of_nat (length s)))
      with true; [done|].
    symmetry. apply andb_true_iff. split; [apply Z.leb_le|apply Z.ltb_lt]; lia.
  - rewrite (lookup_ge_None_2 s k) by lia. by destruct (_ && _).
Qed.

Lemma ToInt32_small (x : Z) : 0 <= x < 65536 -> ToInt32 (Some x) = x.
Proof.
  intros H. unfold ToInt32.
  rewrite Z.mod_small by lia. lia.
Qed.

Lemma map_seq_lookup_id {A : Type} (l : list A) (f : nat -> A) :
  (forall k x, l !! k = Some x -> f k = x) ->
  map f (seq 0 (length l)) = l.
Proof.
  intros H. apply list_eq. intros i.
  rewrite list_lookup_fmap.
  destruct (l !! i) as [x|] eqn:E.
  - rewrite lookup_seq_lt by (by apply lookup_lt_Some in E).
    simpl. f_equal. by apply H.
  - rewrite lookup_seq_ge by (by apply lookup_ge_None in E). done.
Qed.

(** The loop of [unicodeBase64Encode] turns the bytes into the string of
    the same numbers. *)
Lemma binary_of_bytes (data : list Z) :
  Forall byte_range data ->
  Js.for_upto (Js.length data)
    (fun i binary => binary ++ fromCharCode (nth (Z.to_nat i) data 0)) []
  = data.
Proof.
  intros Hb. unfold Js.length, fromCharCode.
  rewrite (for_upto_collect (length data)
             (fun i => nth (Z.to_nat i) data 0 mod 65536)).
  apply map_seq_lookup_id. intros k x Hk.
  rewrite Nat2Z.id.
  rewrite (nth_lookup_Some _ _ _ _ Hk).
  rewrite Forall_lookup in Hb. specialize (Hb k x Hk).
  unfold byte_range in Hb. apply Z.mod_small. lia.
Qed.

(** The loop of [unicodeBase64Decode] fills the byte array with the code
    units of the binary string. *)
Lemma bytes_of_binary binary :
  Forall byte_range binary ->
  Js.for_upto (Js.length binary)
    (fun i bytes =>
       <[Z.to_nat i := ToInt32 (charCodeAt binary (Some i)) mod 256]> bytes)
    (replicate (Z.to_nat (Js.length binary)) 0)
  = binary.
Proof.
  intros Hb. unfold Js.for_upto, Js.length. rewrite Nat2Z.id.
  set (g := fun i : nat =>
              ToInt32 (charCodeAt binary (Some (Z.of_nat i))) mod 256).
  assert (fold_left
            (fun acc i =>
               <[Z.to_nat (Z.of_nat i)
                 := ToInt32 (charCodeAt binary (Some (Z.of_nat i))) mod 256]> acc)
            (seq 0 (length binary)) (replicate (length binary) 0)
          = fold_left (fun a i => <[i := g i]> a)
              (seq 0 (length binary)) (replicate (length binary) 0)) as ->.
  { generalize (replicate (length binary) 0) as acc.
    generalize (seq 0 (length binary)) as idx.
    induction idx as [|i idx IH]; intros acc; simpl; [done|].
    rewrite Nat2Z.id. apply IH. }
  apply list_eq. intros j. rewrite fold_insert_lookup.
  destruct (binary !! j) as [x|] eqn:E.
  - pose proof (lookup_lt_Some _ _ _ E) as Hj.
    destruct (decide _) as [_|H]; [|lia].
    rewrite lookup_replicate_2 by done. simpl. f_equal.
    unfold g. rewrite charCodeAt_lookup, E.
    rewrite Forall_lookup in Hb. specialize (Hb j x E).
    unfold byte_range in Hb.
    rewrite ToInt32_small by lia. apply Z.mod_small. lia.
  - pose proof (lookup_ge_None_1 _ _ E) as Hj.
    destruct (decide _) as [H|_]; [lia|].
    apply lookup_replicate_None. lia.
Qed.
End Loops.

(** ** The XOR pass *)

Section Xor.
Import ConfigEncryptionProvider.
Implicit Types (data password t p : jsstring).

Lemma lxor_below_pow2 (n a b : Z) :
  0 <= n -> 0 <= a < 2 ^ n -> 0 <= b < 2 ^ n -> 0 <= Z.lxor a b < 2 ^ n.
Proof.
  intros Hn Ha Hb.
  assert (0 <= Z.lxor a b) as Hx by (apply Z.lxor_nonneg; lia).
  split; [done|].
  destruct (Z.eq_dec (Z.lxor a b) 0) as [->|Hz]; [lia|].
  destruct (Z.eq_dec n 0) as [->|Hn0].
  { change (2 ^ 0) with 1 in *. assert (a = 0) as -> by lia.
    assert (b = 0) as -> by lia. done. }
  apply Z.log2_lt_pow2; [lia|].
  pose proof (Z.log2_lxor a b ltac:(lia) ltac:(lia)) as Hl.
  assert (forall x, 0 <= x < 2 ^ n -> Z.log2 x < n) as Hlog.
  { intros x Hx'. destruct (Z.eq_dec x 0) as [->|Hx0].
    - change (Z.log2 0) with 0. lia.
    - apply Z.log2_lt_pow2; lia. }
  pose proof (Hlog a Ha). pose proof (Hlog b Hb). lia.
Qed.

Lemma lxor_16_bits (a b : Z) :
  0 <= a < 65536 -> 0 <= b < 65536 -> 0 <= Z.lxor a b < 65536.
Proof. apply (lxor_below_pow2 16). lia. Qed.

(** What [charCodeAt] returns is a unit of the string, or [NaN]. *)
Lemma charCodeAt_wf password (pos : option Z) :
  Js.wf password ->
  match charCodeAt password pos with
  | Some b => 0 <= b < 65536
  | None => True
  end.
Proof.
  intros Hp. unfold charCodeAt.
  destruct (_ && _); [|done].
  destruct (password !! _) as [b|] eqn:E; [|done].
  unfold Js.wf in Hp. rewrite Forall_lookup in Hp. apply (Hp _ _ E).
Qed.

(** One step of the loop on a unit [c] with the key unit [key]. *)
Lemma bitxor_unit (c : Z) (key : option Z) :
  0 <= c < 65536 ->
  match key with Some b => 0 <= b < 65536 | None => True end ->
  0 <= bitxor (Some c) key < 65536 /\
  bitxor (Some (bitxor (Some c) key mod 65536)) key mod 65536 = c.
Proof.
  intros Hc Hk. unfold bitxor. rewrite (ToInt32_small c Hc).
  destruct key as [b|].
  - rewrite (ToInt32_small b Hk).
    pose proof (lxor_16_bits c b Hc Hk) as Hx. split; [done|].
    rewrite (Z.mod_small (Z.lxor c b)) by done.
    rewrite (ToInt32_small _ Hx).
    rewrite Z.lxor_assoc, Z.lxor_nilpotent, Z.lxor_0_r.
    by apply Z.mod_small.
  - change (ToInt32 None) with 0. rewrite Z.lxor_0_r. split; [done|].
    rewrite (Z.mod_small c) by done. rewrite (ToInt32_small c Hc).
    rewrite Z.lxor_0_r. by apply Z.mod_small.
Qed.

(** The loop, unit by unit. *)
Lemma xor_loop_imap data password :
  xor_loop data password
  = imap (fun k c =>
            bitxor (Some c)
              (charCodeAt password
                 (remainder (Z.of_nat k) (Js.length password))) mod 65536)
      data.
Proof.
  unfold xor_loop, Js.length at 1, fromCharCode.
  rewrite (for_upto_collect (length data)
    (fun i => bitxor (charCodeAt data (Some i))
                (charCodeAt password (remainder i (Js.length password)))
              mod 65536)).
  apply list_eq. intros i.
  rewrite list_lookup_fmap, list_lookup_imap.
  destruct (data !! i) as [c|] eqn:E.
  - rewrite lookup_seq_lt by (by apply lookup_lt_Some in E).
    simpl. by rewrite charCodeAt_lookup, E.
  - rewrite lookup_seq_ge by (by apply lookup_ge_None in E). done.
Qed.

Lemma xor_loop_length data password :
  length (xor_loop data password) = length data.
Proof. by rewrite xor_loop_imap, length_imap. Qed.

(** The result is a string of 16-bit units whatever the arguments. *)
Lemma xor_loop_wf data password : Js.wf (xor_loop data password).
Proof.
  rewrite xor_loop_imap. unfold Js.wf. apply Forall_lookup. intros i x.
  rewrite list_lookup_imap. destruct (data !! i); [|done].
  simpl. intros [= <-]. apply Z.mod_pos_bound. lia.
Qed.

(** The pass undoes itself. *)
Lemma xor_loop_involutive data password :
  Js.wf data -> Js.wf password ->
  xor_loop (xor_loop data password) password = data.
Proof.
  intros Hd Hp. rewrite (xor_loop_imap (xor_loop data password)).
  rewrite xor_loop_imap. apply list_eq. intros i.
  rewrite !list_lookup_imap.
  destruct (data !! i) as [c|] eqn:E; [|done]. simpl. f_equal.
  unfold Js.wf in Hd. rewrite Forall_lookup in Hd.
  apply bitxor_unit; [apply (Hd _ _ E)|by apply charCodeAt_wf].
Qed.

(** With the empty password every key unit is [NaN] and the pass is the
    identity. *)
Lemma xor_loop_empty_password data :
  Js.wf data -> xor_loop data [] = data.
Proof.
  intros Hd. rewrite xor_loop_imap. apply list_eq. intros i.
  rewrite list_lookup_imap.
  destruct (data !! i) as [c|] eqn:E; [|done]. simpl. f_equal.
  unfold Js.wf in Hd. rewrite Forall_lookup in Hd. specialize (Hd _ _ E).
  simpl in Hd.
  change (charCodeAt [] (remainder (Z.of_nat i) (Js.length []))) with (@None Z).
  unfold bitxor. change (ToInt32 None) with 0.
  rewrite (ToInt32_small c Hd), Z.lxor_0_r. by apply Z.mod_small.
Qed.
End Xor.

(** ** Base64 *)

Ltac zbool :=
  repeat match goal with
    | |- context [?a <? ?b] => destruct (Z.ltb_spec a b)
    | |- context [?a <=? ?b] => destruct (Z.leb_spec a b)
    | |- context [?a =? ?b] => destruct (Z.eqb_spec a b)
    end;
  simpl; try lia.

(** Linear arithmetic with division and remainder by constants. *)
Ltac divlia := Z.div_mod_to_equations; lia.

Section Base64.
Implicit Types (bytes values : list Z) (data : jsstring).

(** Induction three bytes at a time. *)
Lemma list_ind3 {A : Type} (P : list A -> Prop) :
  P [] -> (forall a, P [a]) -> (forall a b, P [a; b]) ->
  (forall a b c l, P l -> P (a :: b :: c :: l)) ->
  forall l, P l.
Proof.
  intros H0 H1 H2 H3 l.
  enough (P l /\ (forall a, P (a :: l)) /\ (forall a b, P (a :: b :: l)))
    as [H _] by done.
  induction l as [|x l (IH0 & IH1 & IH2)]; [by auto|].
  split; [apply IH1|]. split; [intros a; apply IH2|].
  intros a b. by apply H3.
Qed.

Lemma base64_char_value (n : Z) :
  0 <= n < 64 ->
  base64_value (base64_char n) = Some n /\
  base64_char n <> equals_sign /\
  is_ascii_whitespace (base64_char n) = false.
Proof.
  intros Hn. unfold base64_char, equals_sign.
  destruct (Z.ltb_spec n 26); [|destruct (Z.ltb_spec n 52);
    [|destruct (Z.ltb_spec n 62); [|destruct (Z.eqb_spec n 62)]]];
    (split; [|split; [lia|]]);
    unfold base64_value, is_ascii_whitespace; zbool;
    try (f_equal; lia); try done.
Qed.

Lemma base64_values_range bytes :
  Forall byte_range bytes -> Forall (fun n => 0 <= n < 64) (base64_values bytes).
Proof.
  unfold byte_range.
  induction bytes as [| a | a b | a b c l IH] using list_ind3; intros Hb;
    decompose_Forall_hyps; simpl.
  - constructor.
  - repeat (constructor; [divlia|]). constructor.
  - repeat (constructor; [divlia|]). constructor.
  - repeat (constructor; [divlia|]). by apply IH.
Qed.

Lemma filter_Forall_id {A : Type} (P : A -> Prop) `{forall x, Decision (P x)}
      (l : list A) :
  Forall P l -> filter P l = l.
Proof.
  induction 1 as [|x l Hx Hl IH]; [done|].
  rewrite filter_cons_True by done. by rewrite IH.
Qed.

Lemma remove_padding_cons (c : Z) data :
  c <> equals_sign -> remove_padding (c :: data) = c :: remove_padding data.
Proof.
  intros Hc. simpl.
  destruct data as [|d [|d' data]]; try done.
  - destruct (Z.eqb_spec c equals_sign); done.
  - destruct (Z.eqb_spec c equals_sign); done.
Qed.

(** What [base64_encode] writes: the characters of the 6-bit values, no
    white space, a multiple of four characters, the last ones padding. *)
Lemma base64_encode_cons3 (a b c : Z) bytes :
  base64_encode (a :: b :: c :: bytes)
  = base64_char (a / 4) :: base64_char (a mod 4 * 16 + b / 16)
      :: base64_char (b mod 16 * 4 + c / 64) :: base64_char (c mod 64)
      :: base64_encode bytes.
Proof. done. Qed.

Lemma base64_values_cons3 (a b c : Z) bytes :
  base64_values (a :: b :: c :: bytes)
  = a / 4 :: a mod 4 * 16 + b / 16 :: b mod 16 * 4 + c / 64 :: c mod 64
      :: base64_values bytes.
Proof. done. Qed.

Lemma js_length_cons (c : Z) data : Js.length (c :: data) = 1 + Js.length data.
Proof. unfold Js.length. simpl length. lia. Qed.

(** What [base64_encode] writes: the characters of the 6-bit values, no
    white space, a multiple of four characters, the last ones padding. *)
Lemma base64_encode_shape bytes :
  Forall byte_range bytes ->
  Forall (fun c => is_ascii_whitespace c = false) (base64_encode bytes) /\
  Js.length (base64_encode bytes) mod 4 = 0 /\
  remove_padding (base64_encode bytes) = base64_char <$> base64_values bytes /\
  Js.length (base64_char <$> base64_values bytes) mod 4 <> 1.
Proof.
  intros Hb. pose proof (base64_values_range bytes Hb) as Hv. revert Hb Hv.
  induction bytes as [| a | a b | a b c l IH] using list_ind3; intros Hb Hv.
  - repeat split; done.
  - simpl in Hv. decompose_Forall_hyps.
    repeat match goal with
      | H : 0 <= ?n < 64 |- _ =>
          destruct (base64_char_value n H) as (_ & ? & ?); clear H
      end.
    repeat split; try done.
    simpl. repeat (constructor; [first [done|reflexivity]|]). constructor.
  - simpl in Hv. decompose_Forall_hyps.
    repeat match goal with
      | H : 0 <= ?n < 64 |- _ =>
          destruct (base64_char_value n H) as (_ & ? & ?); clear H
      end.
    repeat split; try done.
    + simpl. repeat (constructor; [first [done|reflexivity]|]). constructor.
    + destruct (Z.eqb_spec (base64_char (b mod 16 * 4)) equals_sign); done.
  - rewrite base64_values_cons3 in *. rewrite base64_encode_cons3.
    apply Forall_cons_1 in Hb as [Ha Hb]. apply Forall_cons_1 in Hb as [Hb' Hb].
    apply Forall_cons_1 in Hb as [Hc Hb].
    apply Forall_cons_1 in Hv as [H1 Hv]. apply Forall_cons_1 in Hv as [H2 Hv].
    apply Forall_cons_1 in Hv as [H3 Hv]. apply Forall_cons_1 in Hv as [H4 Hv].
    destruct (IH Hb Hv) as (IH1 & IH2 & IH3 & IH4).
    destruct (base64_char_value _ H1) as (_ & E1 & W1).
    destruct (base64_char_value _ H2) as (_ & E2 & W2).
    destruct (base64_char_value _ H3) as (_ & E3 & W3).
    destruct (base64_char_value _ H4) as (_ & E4 & W4).
    split; [|split; [|split]].
    + repeat (apply Forall_cons_2; [cbv beta; assumption|]). done.
    + rewrite !js_length_cons. divlia.
    + rewrite !remove_padding_cons by done. by rewrite IH3.
    + rewrite !fmap_cons, !js_length_cons. divlia.
Qed.

Lemma base64_bytes_values bytes :
  Forall byte_range bytes -> base64_bytes (base64_values bytes) = bytes.
Proof.
  unfold byte_range.
  induction bytes as [| a | a b | a b c l IH] using list_ind3; intros Hb;
    decompose_Forall_hyps; simpl.
  - done.
  - f_equal. divlia.
  - f_equal; [divlia|]. f_equal. divlia.
  - rewrite IH by done. f_equal; [divlia|]. f_equal; [divlia|].
    f_equal. divlia.
Qed.

(** [atob] reads back what [btoa] wrote. *)
Lemma atob_base64_encode bytes :
  Forall byte_range bytes -> atob (base64_encode bytes) = Normal bytes.
Proof.
  intros Hb. destruct (base64_encode_shape bytes Hb) as (H1 & H2 & H3 & H4).
  unfold atob. rewrite filter_Forall_id by done. rewrite H2. simpl.
  rewrite H3.
  destruct (Z.eqb_spec (Js.length (base64_char <$> base64_values bytes) mod 4) 1);
    [done|].
  rewrite mapM_fmap_Forall_Some.
  - by rewrite base64_bytes_values.
  - pose proof (base64_values_range bytes Hb) as Hv.
    rewrite Forall_forall in Hv. apply Forall_forall. intros v Hin.
    apply (base64_char_value v (Hv v Hin)).
Qed.

Lemma btoa_bytes bytes :
  Forall byte_range bytes -> btoa bytes = Normal (base64_encode bytes).
Proof.
  intros Hb. unfold btoa.
  replace (forallb (fun c => c <=? 255) bytes) with true; [done|].
  symmetry. apply forallb_forall. intros c Hc.
  rewrite Forall_forall in Hb.
  specialize (Hb c Hc). unfold byte_range in Hb. apply Z.leb_le. lia.
Qed.
End Base64.

(** ** UTF-8 and UTF-16 *)

Section Utf8.
Implicit Types (cp b : Z) (rest bytes : list Z) (s : jsstring).

Lemma is_scalar_value_spec cp :
  is_scalar_value cp = true <->
  0 <= cp <= 0x10FFFF /\ ~ (0xD800 <= cp <= 0xDFFF).
Proof. unfold is_scalar_value. zbool; split; (done || lia). Qed.

Lemma utf8_bytes_range cp :
  is_scalar_value cp = true -> Forall byte_range (utf8_bytes cp).
Proof.
  rewrite is_scalar_value_spec. intros [Hr _].
  unfold utf8_bytes, byte_range.
  destruct (Z.ltb_spec cp 0x80); [|destruct (Z.ltb_spec cp 0x800);
    [|destruct (Z.ltb_spec cp 0x10000)]];
    repeat (apply Forall_cons_2; [divlia|]); constructor.
Qed.

Lemma decode_lead_1 b :
  0 <= b <= 0x7F -> decode_lead b = (decoder_start, [b]).
Proof. intros H. unfold decode_lead. zbool; done. Qed.

Lemma decode_lead_2 b :
  0xC2 <= b <= 0xDF ->
  decode_lead b
  = ({| code_point := b mod 32; bytes_seen := 0; bytes_needed := 1;
        lower_boundary := 0x80; upper_boundary := 0xBF |}, []).
Proof. intros H. unfold decode_lead. zbool; done. Qed.

Lemma decode_lead_3 b :
  0xE0 <= b <= 0xEF ->
  decode_lead b
  = ({| code_point := b mod 16; bytes_seen := 0; bytes_needed := 2;
        lower_boundary := if b =? 0xE0 then 0xA0 else 0x80;
        upper_boundary := if b =? 0xED then 0x9F else 0xBF |}, []).
Proof.
  intros H. unfold decode_lead.
  destruct (Z.leb_spec 0 b); [|lia]. destruct (Z.leb_spec b 0x7F); [lia|].
  destruct (Z.leb_spec 0xC2 b); [|lia]. destruct (Z.leb_spec b 0xDF); [lia|].
  destruct (Z.leb_spec 0xE0 b); [|lia]. destruct (Z.leb_spec b 0xEF); [|lia].
  done.
Qed.

Lemma decode_lead_4 b :
  0xF0 <= b <= 0xF4 ->
  decode_lead b
  = ({| code_point := b mod 8; bytes_seen := 0; bytes_needed := 3;
        lower_boundary := if b =? 0xF0 then 0x90 else 0x80;
        upper_boundary := if b =? 0xF4 then 0x8F else 0xBF |}, []).
Proof.
  intros H. unfold decode_lead.
  destruct (Z.leb_spec 0 b); [|lia]. destruct (Z.leb_spec b 0x7F); [lia|].
  destruct (Z.leb_spec 0xC2 b); [|lia]. destruct (Z.leb_spec b 0xDF); [lia|].
  destruct (Z.leb_spec 0xE0 b); [|lia]. destruct (Z.leb_spec b 0xEF); [lia|].
  destruct (Z.leb_spec 0xF0 b); [|lia]. destruct (Z.leb_spec b 0xF4); [|lia].
  done.
Qed.

(** A continuation byte inside the boundaries of an open sequence. *)
Lemma decode_byte_continue (st : decoder) b :
  bytes_needed st <> 0 ->
  lower_boundary st <= b <= upper_boundary st ->
  decode_byte st b
  = if bytes_seen st + 1 =? bytes_needed st
    then (decoder_start, [code_point st * 64 + b mod 64])
    else ({| code_point := code_point st * 64 + b mod 64;
             bytes_seen := bytes_seen st + 1;
             bytes_needed := bytes_needed st;
             lower_boundary := 0x80; upper_boundary := 0xBF |}, []).
Proof.
  intros Hn Hb. unfold decode_byte.
  destruct (Z.eqb_spec (bytes_needed st) 0); [done|].
  destruct (Z.ltb_spec b (lower_boundary st)); [lia|].
  destruct (Z.ltb_spec (upper_boundary st) b); [lia|].
  done.
Qed.

Lemma decode_bytes_cons (st : decoder) b rest :
  decode_bytes st (b :: rest)
  = (decode_byte st b).2 ++ decode_bytes (decode_byte st b).1 rest.
Proof. simpl. by destruct (decode_byte st b). Qed.

Lemma decode_byte_start b : decode_byte decoder_start b = decode_lead b.
Proof. done. Qed.

Local Ltac boundaries :=
  cbn [code_point bytes_seen bytes_needed lower_boundary upper_boundary];
  try done;
  repeat match goal with
    | |- context [?a =? ?b] => destruct (Z.eqb_spec a b)
    end;
  divlia.

Local Ltac continue :=
  rewrite decode_bytes_cons, decode_byte_continue by boundaries;
  cbn [code_point bytes_seen bytes_needed lower_boundary upper_boundary];
  change (0 + 1 =? 1) with true; change (0 + 1 =? 2) with false;
  change (0 + 1 =? 3) with false; change (0 + 1 + 1 =? 2) with true;
  change (0 + 1 + 1 =? 3) with false; change (0 + 1 + 1 + 1 =? 3) with true;
  cbn [fst snd app].

(** The decoder reads the encoding of a scalar value back and is ready for
    the next one. *)
Lemma decode_bytes_scalar cp rest :
  is_scalar_value cp = true ->
  decode_bytes decoder_start (utf8_bytes cp ++ rest)
  = cp :: decode_bytes decoder_start rest.
Proof.
  rewrite is_scalar_value_spec. intros [Hr Hs].
  unfold utf8_bytes.
  destruct (Z.ltb_spec cp 0x80); [|destruct (Z.ltb_spec cp 0x800);
    [|destruct (Z.ltb_spec cp 0x10000)]]; cbn [app].
  - rewrite decode_bytes_cons, decode_byte_start, decode_lead_1 by lia. done.
  - rewrite decode_bytes_cons, decode_byte_start, decode_lead_2 by divlia.
    cbn [fst snd app]. continue. f_equal. divlia.
  - rewrite decode_bytes_cons, decode_byte_start, decode_lead_3 by divlia.
    cbn [fst snd app]. continue. continue. f_equal. divlia.
  - rewrite decode_bytes_cons, decode_byte_start, decode_lead_4 by divlia.
    cbn [fst snd app]. continue. continue. continue. f_equal. divlia.
Qed.

Lemma decode_bytes_scalars (cps : list Z) :
  Forall (fun cp => is_scalar_value cp = true) cps ->
  decode_bytes decoder_start (concat (map utf8_bytes cps)) = cps.
Proof.
  induction 1 as [|cp cps Hcp _ IH]; [done|].
  cbn [map concat]. rewrite decode_bytes_scalar by done. by rewrite IH.
Qed.

Lemma surrogate_pair_scalar (hi lo : Z) :
  is_high_surrogate hi = true -> is_low_surrogate lo = true ->
  is_scalar_value (surrogate_pair_value hi lo) = true /\
  utf16_units (surrogate_pair_value hi lo) = [hi; lo] /\
  surrogate_pair_value hi lo <> 0xFEFF.
Proof.
  unfold is_high_surrogate, is_low_surrogate. intros Hh Hl.
  apply andb_true_iff in Hh as [Hh1 Hh2]. apply andb_true_iff in Hl as [Hl1 Hl2].
  apply Z.leb_le in Hh1, Hh2, Hl1, Hl2.
  split; [|split].
  - apply is_scalar_value_spec. unfold surrogate_pair_value. lia.
  - unfold utf16_units, surrogate_pair_value.
    destruct (Z.ltb_spec (0x10000 + (hi - 0xD800) * 0x400 + (lo - 0xDC00))
                0x10000); [lia|].
    f_equal; [divlia|]. f_equal. divlia.
  - unfold surrogate_pair_value. lia.
Qed.

Lemma plain_unit_scalar (c : Z) :
  0 <= c < 65536 -> is_high_surrogate c = false -> is_low_surrogate c = false ->
  is_scalar_value c = true /\ utf16_units c = [c].
Proof.
  unfold is_high_surrogate, is_low_surrogate. intros Hc Hh Hl.
  apply andb_false_iff in Hh, Hl. rewrite !Z.leb_gt in Hh, Hl.
  split.
  - apply is_scalar_value_spec. lia.
  - unfold utf16_units. destruct (Z.ltb_spec c 0x10000); [done|lia].
Qed.

(** The scalar values of any string of 16-bit units are scalar values. *)
Lemma to_scalar_values_scalar s :
  Js.wf s -> Forall (fun cp => is_scalar_value cp = true) (to_scalar_values s).
Proof.
  unfold Js.wf. remember (length s) as n eqn:Hn. revert s Hn.
  induction (lt_wf n) as [n _ IH]. intros s -> Hs.
  destruct s as [|c r]; [constructor|].
  apply Forall_cons_1 in Hs as [Hc Hr]. cbn [to_scalar_values].
  assert (Forall (fun cp => is_scalar_value cp = true) (to_scalar_values r))
    as IHr by (apply (IH (length r)); [simpl; lia|done..]).
  destruct (is_high_surrogate c) eqn:Hh.
  - destruct r as [|d r']; [by repeat constructor|].
    apply Forall_cons_1 in Hr as [Hd Hr'].
    destruct (is_low_surrogate d) eqn:Hl.
    + apply Forall_cons_2; [by apply surrogate_pair_scalar|].
      apply (IH (length r')); [simpl; lia|done..].
    + by apply Forall_cons_2.
  - destruct (is_low_surrogate c) eqn:Hl.
    + by apply Forall_cons_2.
    + apply Forall_cons_2; [|done]. by apply plain_unit_scalar.
Qed.

(** On a string without a surrogate outside a pair the conversion loses
    nothing. *)
Lemma utf16_units_scalar_values s :
  Js.wf s -> well_formed s = true ->
  concat (map utf16_units (to_scalar_values s)) = s.
Proof.
  unfold Js.wf. remember (length s) as n eqn:Hn. revert s Hn.
  induction (lt_wf n) as [n _ IH]. intros s -> Hs Hw.
  destruct s as [|c r]; [done|].
  apply Forall_cons_1 in Hs as [Hc Hr].
  cbn [to_scalar_values well_formed] in *.
  destruct (is_high_surrogate c) eqn:Hh.
  - destruct r as [|d r']; [done|].
    apply Forall_cons_1 in Hr as [Hd Hr'].
    apply andb_true_iff in Hw as [Hl Hw]. rewrite Hl.
    cbn [map concat].
    destruct (surrogate_pair_scalar c d Hh Hl) as (_ & -> & _).
    cbn [app]. do 2 f_equal. apply (IH (length r')); [simpl; lia|done..].
  - apply andb_true_iff in Hw as [Hl Hw]. apply negb_true_iff in Hl.
    rewrite Hl. cbn [map concat].
    destruct (plain_unit_scalar c Hc Hh Hl) as (_ & ->).
    cbn [app]. f_equal. apply (IH (length r)); [simpl; lia|done..].
Qed.

(** Only a string that starts with U+FEFF has scalar values that do. *)
Lemma strip_bom_scalar_values s :
  well_formed s = true -> head s <> Some 0xFEFF ->
  strip_bom (to_scalar_values s) = to_scalar_values s.
Proof.
  intros Hw Hh. destruct s as [|c r]; [done|].
  cbn [to_scalar_values well_formed head] in *.
  destruct (is_high_surrogate c) eqn:Hhi.
  - destruct r as [|d r']; [done|].
    apply andb_true_iff in Hw as [Hl Hw]. rewrite Hl.
    destruct (surrogate_pair_scalar c d Hhi Hl) as (_ & _ & Hne).
    unfold strip_bom.
    destruct (Z.eqb_spec (surrogate_pair_value c d) 0xFEFF); done.
  - apply andb_true_iff in Hw as [Hl Hw]. apply negb_true_iff in Hl.
    rewrite Hl. unfold strip_bom.
    destruct (Z.eqb_spec c 0xFEFF); [congruence|done].
Qed.

Lemma TextEncoder_encode_bytes s :
  Js.wf s -> Forall byte_range (TextEncoder_encode s).
Proof.
  intros Hs. unfold TextEncoder_encode.
  pose proof (to_scalar_values_scalar s Hs) as Hv.
  induction Hv as [|cp cps Hcp _ IH]; [constructor|].
  cbn [map concat]. apply Forall_app. split; [by apply utf8_bytes_range|done].
Qed.

(** [TextDecoder] reads back what [TextEncoder] wrote, for a string of
    whole characters that does not start with U+FEFF. *)
Lemma TextDecoder_TextEncoder s :
  Js.wf s -> well_formed s = true -> head s <> Some 0xFEFF ->
  TextDecoder_decode (TextEncoder_encode s) = s.
Proof.
  intros Hs Hw Hh. unfold TextDecoder_decode, TextEncoder_encode.
  rewrite decode_bytes_scalars by (by apply to_scalar_values_scalar).
  rewrite strip_bom_scalar_values by done.
  by apply utf16_units_scalar_values.
Qed.
End Utf8.

(** ** Encryption and decryption together *)

Section RoundTrip.
Import ConfigEncryptionProvider.
Implicit Types (s t p data password : jsstring).

(** On a string of 16-bit units the first attempt of [unicodeBase64Encode]
    succeeds; the URI fallback is not reached. *)
Lemma unicodeBase64Encode_wf s :
  Js.wf s ->
  unicodeBase64Encode s = Normal (base64_encode (TextEncoder_encode s)).
Proof.
  intros Hs. unfold unicodeBase64Encode.
  pose proof (TextEncoder_encode_bytes s Hs) as Hb.
  rewrite binary_of_bytes by exact Hb. by rewrite btoa_bytes.
Qed.

(** ... and [unicodeBase64Decode] reads the bytes back. *)
Lemma unicodeBase64Decode_encoded s :
  Js.wf s ->
  unicodeBase64Decode (base64_encode (TextEncoder_encode s))
  = Normal (TextDecoder_decode (TextEncoder_encode s)).
Proof.
  intros Hs. unfold unicodeBase64Decode.
  pose proof (TextEncoder_encode_bytes s Hs) as Hb.
  rewrite atob_base64_encode by done.
  by rewrite bytes_of_binary by exact Hb.
Qed.

(** [encrypt] returns for every text and every password, the empty one
    included. *)
Lemma encrypt_returns data password :
  encrypt data password
  = Normal (base64_encode (TextEncoder_encode (xor_loop data password))).
Proof. unfold encrypt. apply unicodeBase64Encode_wf, xor_loop_wf. Qed.

(** With the empty password [encrypt] is the plain encoding. *)
Lemma encrypt_empty_password t :
  Js.wf t -> encrypt t [] = unicodeBase64Encode t.
Proof. intros Ht. unfold encrypt. by rewrite xor_loop_empty_password. Qed.

(** The round trip holds whenever the XORed text is a string of whole
    characters that does not start with U+FEFF. *)
Lemma decrypt_encrypt_representable t p :
  Js.wf t -> Js.wf p ->
  well_formed (xor_loop t p) = true ->
  head (xor_loop t p) <> Some 0xFEFF ->
  exists c, encrypt t p = Normal c /\ decrypt c p = Normal t.
Proof.
  intros Ht Hp Hw Hh. eexists. split; [apply encrypt_returns|].
  unfold decrypt.
  rewrite unicodeBase64Decode_encoded by apply xor_loop_wf.
  rewrite TextDecoder_TextEncoder by (done || apply xor_loop_wf).
  by rewrite xor_loop_involutive.
Qed.

(** XOR with a 7-bit key keeps a unit in its block of 128. *)
Lemma lxor_ascii_block (c k : Z) :
  0 <= c -> 0 <= k < 128 -> Z.lxor c k / 128 = c / 128.
Proof.
  intros Hc Hk. change 128 with (2 ^ 7).
  rewrite <- !Z.shiftr_div_pow2 by lia.
  rewrite Z.shiftr_lxor.
  rewrite (Z.shiftr_div_pow2 k) by lia.
  rewrite (Z.div_small k) by (change (2 ^ 7) with 128; lia).
  apply Z.lxor_0_r.
Qed.

Lemma surrogate_blocks (c : Z) :
  is_high_surrogate c = ((432 <=? c / 128) && (c / 128 <=? 439)) /\
  is_low_surrogate c = ((440 <=? c / 128) && (c / 128 <=? 447)).
Proof.
  unfold is_high_surrogate, is_low_surrogate.
  split; zbool; try done; divlia.
Qed.

(** One step of the loop under an ASCII password. *)
Lemma xor_unit_ascii_block password (k : nat) (c : Z) :
  ascii_only password -> 0 <= c < 65536 ->
  (bitxor (Some c)
     (charCodeAt password (remainder (Z.of_nat k) (Js.length password)))
   mod 65536) / 128 = c / 128.
Proof.
  intros Hp Hc. unfold bitxor. rewrite (ToInt32_small c Hc).
  assert (match charCodeAt password
                  (remainder (Z.of_nat k) (Js.length password)) with
          | Some b => 0 <= b < 128
          | None => True
          end) as Hkey.
  { unfold charCodeAt. destruct (_ && _); [|done].
    destruct (password !! _) as [b|] eqn:E; [|done].
    unfold ascii_only in Hp. rewrite Forall_lookup in Hp. apply (Hp _ _ E). }
  destruct (charCodeAt _ _) as [b|].
  - rewrite ToInt32_small by lia.
    rewrite Z.mod_small by (apply lxor_16_bits; lia).
    apply lxor_ascii_block; lia.
  - change (ToInt32 None) with 0. rewrite Z.lxor_0_r.
    by rewrite Z.mod_small.
Qed.

Lemma well_formed_imap (f : nat -> Z -> Z) s :
  Js.wf s ->
  (forall k c, 0 <= c < 65536 -> f k c / 128 = c / 128) ->
  well_formed (imap f s) = well_formed s.
Proof.
  unfold Js.wf. remember (length s) as n eqn:Hn. revert f s Hn.
  induction (lt_wf n) as [n _ IH]. intros f s -> Hs Hf.
  destruct s as [|c r]; [done|].
  apply Forall_cons_1 in Hs as [Hc Hr].
  rewrite imap_cons. cbn [well_formed].
  destruct (surrogate_blocks c) as [Eh El].
  destruct (surrogate_blocks (f 0%nat c)) as [Eh' El'].
  rewrite (Hf 0%nat c Hc) in Eh', El'. rewrite Eh', El', <- Eh, <- El.
  destruct (is_high_surrogate c).
  - destruct r as [|d r']; [done|].
    apply Forall_cons_1 in Hr as [Hd Hr'].
    rewrite imap_cons. change ((f ∘ S) 0%nat d) with (f 1%nat d).
    destruct (surrogate_blocks d) as [_ Fl].
    destruct (surrogate_blocks (f 1%nat d)) as [_ Fl'].
    rewrite (Hf 1%nat d Hd) in Fl'. rewrite Fl', <- Fl.
    f_equal. apply (IH (length r')); [simpl; lia|done..|].
    intros k x Hx. by apply Hf.
  - f_equal. apply (IH (length r)); [simpl; lia|done..|].
    intros k x Hx. by apply Hf.
Qed.

(** Under an ASCII password the round trip holds for every text of whole
    characters whose first unit is outside U+FE80..U+FEFF. *)
Lemma decrypt_encrypt_ascii_password t p :
  Js.wf t -> ascii_only p ->
  well_formed t = true ->
  (forall c, head t = Some c -> ~ (0xFE80 <= c <= 0xFEFF)) ->
  exists c, encrypt t p = Normal c /\ decrypt c p = Normal t.
Proof.
  intros Ht Hp Hw Hh.
  assert (Js.wf p) as Hp'.
  { unfold Js.wf. apply Forall_lookup. intros i k E.
    pose proof Hp as Hp2. unfold ascii_only in Hp2.
    rewrite Forall_lookup in Hp2. specialize (Hp2 i k E). simpl in Hp2. lia. }
  apply decrypt_encrypt_representable; try done.
  - rewrite xor_loop_imap, well_formed_imap; try done.
    intros k c Hc. by apply xor_unit_ascii_block.
  - rewrite xor_loop_imap. destruct t as [|c r]; [done|].
    rewrite imap_cons. cbn [head]. intros [= E].
    apply Forall_cons_1 in Ht as [Hc _].
    pose proof (xor_unit_ascii_block p 0 c Hp Hc) as Hb.
    rewrite E in Hb. apply (Hh c eq_refl). divlia.
Qed.
End RoundTrip.

(** C9 on the code.  With the empty password [encrypt] does return, and
    what it returns is the plain encoding of the text ([encrypt_returns],
    [encrypt_empty_password]); but a text that starts with U+FEFF does not
    come back: [TextDecoder] drops that first character. *)
Theorem encrypt_empty_password_round_trip_lost :
  ConfigEncryptionProvider.encrypt (0xFEFF :: Js.lit "{}") []
  = Normal (Js.lit "77u/e30=") /\
  ConfigEncryptionProvider.unicodeBase64Encode (0xFEFF :: Js.lit "{}")
  = Normal (Js.lit "77u/e30=") /\
  ConfigEncryptionProvider.decrypt (Js.lit "77u/e30=") []
  = Normal (Js.lit "{}").
Proof. repeat split; vm_compute; reflexivity. Qed.

(** ** More on the tray service *)

Ltac world_fields :=
  cbn [calls console status_updates fst snd enabled message negb].

(** [toggleSystemTray] sends exactly one command, the one its argument
    names, writes nothing to the console, and reports [enabled = true] only
    for a request to enable that the backend accepted. *)
Theorem toggleSystemTray_dispatch (on : bool) (e : env) (w : world) :
  let cmd := if on then enable_system_tray else disable_system_tray in
  calls (SystemTrayService.toggleSystemTray on e w).2 = calls w ++ [cmd] /\
  console (SystemTrayService.toggleSystemTray on e w).2 = console w /\
  exists st,
    (SystemTrayService.toggleSystemTray on e w).1 = Resolved st /\
    (enabled st = true <->
     on = true /\ exists r, backend e (calls w) cmd = Resolved r /\ message st = r).
Proof.
  destruct on; unfold SystemTrayService.toggleSystemTray,
    SystemTrayService.enableSystemTray, SystemTrayService.disableSystemTray;
    async_unfold; world_fields.
  - destruct (backend e (calls w) enable_system_tray) as [r|r]; world_fields;
      (split; [done|]); (split; [done|]); eexists; (split; [done|]);
      world_fields.
    + split; [eauto|done].
    + split; [done|]. intros [_ (r' & H & _)]. discriminate H.
  - destruct (backend e (calls w) disable_system_tray) as [r|r]; world_fields;
      (split; [done|]); (split; [done|]); eexists; (split; [done|]);
      world_fields; (split; [done|]); intros [H _]; discriminate H.
Qed.

(** [disableSystemTray] reports [enabled = false] whether the backend
    accepted or refused, so [disableSystemTrayWithSave] always goes on to
    write the disabled state: its calls are the disable command and then
    [save_system_tray_state(false)], even when disabling was refused, and
    its status has [enabled = false]. *)
Theorem disableSystemTrayWithSave_always_saves (e : env) (w : world) :
  calls (SystemTrayService.disableSystemTrayWithSave e w).2
  = calls w ++ [disable_system_tray; save_system_tray_state false] /\
  exists st,
    (SystemTrayService.disableSystemTrayWithSave e w).1 = Resolved st /\
    enabled st = false.
Proof.
  unfold SystemTrayService.disableSystemTrayWithSave,
    SystemTrayService.disableSystemTray, SystemTrayService.saveSystemTrayState.
  async_unfold. world_fields.
  destruct (backend e (calls w) disable_system_tray); world_fields;
    match goal with
    | |- context [backend e ?h (save_system_tray_state false)] =>
        destruct (backend e h (save_system_tray_state false))
    end; world_fields;
    rewrite <- app_assoc; (split; [done|]); eexists; split; done.
Qed.

(** [enableSystemTrayWithSave] writes the enabled state only after the
    backend accepted: refused, it stops after the one call and reports the
    refusal; accepted and saved, it returns the status of the toggle,
    [enabled = true] with the backend's message. *)
Theorem enableSystemTrayWithSave_saves_after_success (e : env) (w : world) :
  (forall reason,
      backend e (calls w) enable_system_tray = Rejected reason ->
      SystemTrayService.enableSystemTrayWithSave e w
      = (Resolved {| enabled := false;
                     message := VString ("启用系统托盘失败: " ++ to_string reason) |},
         {| calls := calls w ++ [enable_system_tray];
            console := console w;
            status_updates := status_updates w |})) /\
  (forall r saved,
      backend e (calls w) enable_system_tray = Resolved r ->
      backend e (calls w ++ [enable_system_tray]) (save_system_tray_state true)
      = Resolved saved ->
      SystemTrayService.enableSystemTrayWithSave e w
      = (Resolved {| enabled := true; message := r |},
         {| calls := calls w ++ [enable_system_tray; save_system_tray_state true];
            console := console w;
            status_updates := status_updates w |}))%string.
Proof.
  split.
  - intros reason Ht.
    unfold SystemTrayService.enableSystemTrayWithSave,
      SystemTrayService.enableSystemTray, SystemTrayService.saveSystemTrayState.
    async_unfold. world_fields. rewrite Ht. world_fields. done.
  - intros r saved Ht Hs.
    unfold SystemTrayService.enableSystemTrayWithSave,
      SystemTrayService.enableSystemTray, SystemTrayService.saveSystemTrayState.
    async_unfold. world_fields. rewrite Ht. world_fields. rewrite Hs.
    world_fields. by rewrite <- app_assoc.
Qed.

Lemma enableSystemTrayWithSave_saves_after_success_witness :
  SystemTrayService.enableSystemTrayWithSave offline no_history
  = (Resolved {| enabled := false;
                 message := VString "启用系统托盘失败: backend offline" |},
     {| calls := [enable_system_tray]; console := []; status_updates := [] |}).
Proof.
  exact (proj1 (enableSystemTrayWithSave_saves_after_success offline no_history)
           (VString "backend offline") eq_refl).
Defined.

(** ** More on the Antigravity service *)

(** [getBackupList] makes one call.  A truthy answer, the empty list
    included, is returned as it is; a falsy answer ([null], [undefined],
    [false], the empty string) is an error, which the function's own [catch]
    wraps like a rejection. *)
Theorem getBackupList_answers (e : env) (w : world) :
  calls (AntigravityService.getBackupList e w).2 = calls w ++ [list_backups] /\
  (forall v,
      backend e (calls w) list_backups = Resolved v -> falsy v = false ->
      (AntigravityService.getBackupList e w).1 = Resolved v) /\
  (forall v,
      backend e (calls w) list_backups = Resolved v -> falsy v = true ->
      (AntigravityService.getBackupList e w).1
      = Rejected (VError "获取备份列表失败: 无法获取备份列表")).
Proof.
  unfold AntigravityService.getBackupList. async_unfold. world_fields.
  destruct (backend e (calls w) list_backups) as [v|r] eqn:Hb; world_fields.
  - destruct (falsy v) eqn:Hv; world_fields.
    + split; [done|]. split; intros v' [= <-] Hv'; [congruence|done].
    + split; [done|]. split; intros v' [= <-] Hv'; [done|congruence].
  - split; [done|]. split; intros v' H; discriminate H.
Qed.

Lemma getBackupList_answers_witness :
  (AntigravityService.getBackupList no_backups no_history).1
  = Resolved (VArray []).
Proof.
  exact (proj1 (proj2 (getBackupList_answers no_backups no_history))
           (VArray []) eq_refl eq_refl).
Defined.

(** [backupAndRestartAntigravity] announces the shutdown, makes its one
    call, and hands the backend's answer to the status callback.  When the
    call is rejected the callback gets nothing more: the failure reaches the
    caller only as the thrown error. *)
Theorem backupAndRestartAntigravity_status (e : env) (w : world) :
  let progress := (VString "正在关闭 Antigravity 进程...", @None bool) in
  let w' := (AntigravityService.backupAndRestartAntigravity e w).2 in
  calls w' = calls w ++ [backup_and_restart_antigravity] /\
  (forall result,
      backend e (calls w) backup_and_restart_antigravity = Resolved result ->
      (AntigravityService.backupAndRestartAntigravity e w).1 = Resolved tt /\
      status_updates w' = status_updates w ++ [progress; (result, None)]) /\
  (forall reason,
      backend e (calls w) backup_and_restart_antigravity = Rejected reason ->
      status_updates w' = status_updates w ++ [progress]).
Proof.
  unfold AntigravityService.backupAndRestartAntigravity. async_unfold.
  world_fields.
  destruct (backend e (calls w) backup_and_restart_antigravity) as [v|r];
    world_fields.
  - split; [done|]. split.
    + intros result [= <-]. rewrite <- app_assoc. done.
    + intros reason H. discriminate H.
  - split; [done|]. split.
    + intros result H. discriminate H.
    + done.
Qed.

Lemma backupAndRestartAntigravity_status_witness :
  (AntigravityService.backupAndRestartAntigravity restarts no_history).1
  = Resolved tt /\
  status_updates (AntigravityService.backupAndRestartAntigravity restarts no_history).2
  = [(VString "正在关闭 Antigravity 进程...", None); (VString "restarted", None)].
Proof.
  exact (proj1 (proj2 (backupAndRestartAntigravity_status restarts no_history))
           (VString "restarted") eq_refl).
Defined.

(** Off Windows [ensureAntigravityPath] answers [true] at once: no call, no
    status update, the world as it was. *)
Theorem ensureAntigravityPath_not_windows (e : env) (w : world) :
  isWindows e = false ->
  AntigravityService.ensureAntigravityPath e w = (Resolved true, w).
Proof.
  intros H. unfold AntigravityService.ensureAntigravityPath. async_unfold.
  rewrite H. done.
Qed.

Lemma ensureAntigravityPath_not_windows_witness :
  AntigravityService.ensureAntigravityPath not_windows no_history
  = (Resolved true, no_history).
Proof.
  exact (ensureAntigravityPath_not_windows not_windows no_history eq_refl).
Defined.

Ltac ensure_cases e w :=
  unfold AntigravityService.ensureAntigravityPath; async_unfold; world_fields;
  destruct (isWindows e); world_fields;
  [ destruct (backend e (calls w) is_antigravity_running) as [running|?] eqn:Hrun;
    world_fields;
    [ destruct (falsy running) eqn:Hrunning; world_fields;
      [ | destruct (backend e (calls w ++ [is_antigravity_running])
                      resolve_antigravity_path) as [resolved|?] eqn:Hres;
          world_fields;
          [ destruct (falsy resolved) eqn:Hresolved; world_fields;
            [ rewrite <- ?app_assoc; cbn [app];
              destruct (backend e
                          (calls w ++ [is_antigravity_running;
                                       resolve_antigravity_path])
                          plugin_dialog_open) as [selected|?] eqn:Hsel;
              world_fields;
              [ destruct (falsy selected) eqn:Hfalsy;
                destruct (isArray selected) eqn:Harray;
                cbn [orb]; world_fields;
                [ | | |
                  rewrite <- ?app_assoc; cbn [app];
                  destruct (backend e
                              (calls w ++ [is_antigravity_running;
                                           resolve_antigravity_path;
                                           plugin_dialog_open])
                              (save_antigravity_path selected)) eqn:Hsave;
                  world_fields ]
              | ]
            | ]
          | ] ]
    | ]
  | ];
  rewrite <- ?app_assoc; cbn [app].

(** Every [false] from [ensureAntigravityPath] comes with a status update
    flagged as an error, the last one given; a [true] comes with none
    flagged. *)
Theorem ensureAntigravityPath_status_flags (e : env) (w : world) :
  exists (ok : bool) (new : list (value * option bool)),
    (AntigravityService.ensureAntigravityPath e w).1 = Resolved ok /\
    status_updates (AntigravityService.ensureAntigravityPath e w).2
    = status_updates w ++ new /\
    (ok = false -> exists before m, new = before ++ [(m, Some true)]) /\
    (ok = true -> Forall (fun u => u.2 = None) new).
Proof.
  ensure_cases e w;
    eexists _, _; (split; [reflexivity|]);
    (split; [first [symmetry; apply app_nil_r | reflexivity]|]);
    (split; intros Hok; try discriminate Hok);
    first [ by repeat constructor
          | by eexists [], _
          | by eexists [_], _ ].
Qed.

(** The calls of [ensureAntigravityPath], in order: the running check, then
    the path lookup only if the process runs, then the file dialog only if
    no path was found, then the save only of what the dialog returned, a
    truthy value that is not an array.  Nothing else is sent. *)
Theorem ensureAntigravityPath_calls (e : env) (w : world) :
  exists new,
    calls (AntigravityService.ensureAntigravityPath e w).2 = calls w ++ new /\
    (new = [] \/
     new = [is_antigravity_running] \/
     (new = [is_antigravity_running; resolve_antigravity_path] /\
      exists running,
        backend e (calls w) is_antigravity_running = Resolved running /\
        falsy running = false) \/
     exists running resolved,
       backend e (calls w) is_antigravity_running = Resolved running /\
       falsy running = false /\
       backend e (calls w ++ [is_antigravity_running]) resolve_antigravity_path
       = Resolved resolved /\
       falsy resolved = true /\
       (new = [is_antigravity_running; resolve_antigravity_path;
               plugin_dialog_open] \/
        exists selected,
          backend e (calls w ++ [is_antigravity_running; resolve_antigravity_path])
            plugin_dialog_open = Resolved selected /\
          falsy selected = false /\ isArray selected = false /\
          new = [is_antigravity_running; resolve_antigravity_path;
                 plugin_dialog_open; save_antigravity_path selected])).
Proof.
  ensure_cases e w;
    eexists; (split; [first [symmetry; apply app_nil_r | reflexivity]|]);
    first [ by left
          | by right; left
          | by right; right; left; eauto
          | by right; right; right; eexists _, _; repeat split; eauto
          | right; right; right; eexists _, _;
            do 4 (split; [eassumption || reflexivity|]);
            right; eexists; repeat split; eauto ].
Qed.

(** On Windows [ensureAntigravityPath] answers [true] only if the backend
    reported the process running, and then either a path was already known
    or the path chosen in the dialog was saved. *)
Theorem ensureAntigravityPath_true_on_windows (e : env) (w : world) :
  isWindows e = true ->
  (AntigravityService.ensureAntigravityPath e w).1 = Resolved true ->
  exists running resolved,
    backend e (calls w) is_antigravity_running = Resolved running /\
    falsy running = false /\
    backend e (calls w ++ [is_antigravity_running]) resolve_antigravity_path
    = Resolved resolved /\
    (falsy resolved = false \/
     exists selected saved,
       backend e (calls w ++ [is_antigravity_running; resolve_antigravity_path])
         plugin_dialog_open = Resolved selected /\
       backend e (calls w ++ [is_antigravity_running; resolve_antigravity_path;
                              plugin_dialog_open])
         (save_antigravity_path selected) = Resolved saved).
Proof.
  intros Hwin. revert Hwin.
  ensure_cases e w; intros Hwin Hok; try discriminate Hwin;
    try discriminate Hok;
    eexists _, _; (split; [reflexivity|]); (split; [assumption|]);
    (split; [reflexivity|]);
    first [ by left
          | right; eexists _, _; split; first [reflexivity | eassumption] ].
Qed.

Lemma ensureAntigravityPath_true_on_windows_witness :
  exists running resolved,
    backend restarts (calls no_history) is_antigravity_running = Resolved running /\
    falsy running = false /\
    backend restarts (calls no_history ++ [is_antigravity_running])
      resolve_antigravity_path = Resolved resolved /\
    (falsy resolved = false \/
     exists selected saved,
       backend restarts
         (calls no_history ++ [is_antigravity_running; resolve_antigravity_path])
         plugin_dialog_open = Resolved selected /\
       backend restarts
         (calls no_history ++ [is_antigravity_running; resolve_antigravity_path;
                               plugin_dialog_open])
         (save_antigravity_path selected) = Resolved saved).
Proof.
  exact (ensureAntigravityPath_true_on_windows restarts no_history
           eq_refl eq_refl).
Defined.

(** ** More on the encryption provider *)

Section ProviderMore.
Import ConfigEncryptionProvider.
Implicit Types (s t p q data input password : jsstring).

(** [unicodeBase64Decode] and [decrypt] see their input only through
    [atob]. *)
Lemma decrypt_through_atob input input' password :
  atob input = atob input' ->
  unicodeBase64Decode input = unicodeBase64Decode input' /\
  decrypt input password = decrypt input' password.
Proof.
  intros H. unfold decrypt, unicodeBase64Decode. by rewrite H.
Qed.

Lemma remove_padding_keeps (x : Z) data :
  x ∈ data -> x <> equals_sign -> x ∈ remove_padding data.
Proof.
  intros Hin Hx. induction data as [|c rest IH]; [done|].
  apply elem_of_cons in Hin as [->|Hin].
  - rewrite remove_padding_cons by done. apply elem_of_cons. by left.
  - specialize (IH Hin). cbn [remove_padding].
    destruct rest as [|d [|d' rest']].
    + by apply elem_of_nil in Hin.
    + apply list_elem_of_singleton in Hin as ->.
      destruct (Z.eqb_spec d equals_sign) as [->|_]; [done|].
      rewrite andb_false_r. apply elem_of_cons. by right.
    + apply elem_of_cons. by right.
Qed.

Lemma mapM_None_elem {A B : Type} (f : A -> option B) (l : list A) (x : A) :
  x ∈ l -> f x = None -> mapM f l = None.
Proof.
  intros Hin Hx. destruct (mapM f l) as [k|] eqn:E; [|done].
  apply mapM_Some_1 in E.
  apply list_elem_of_lookup in Hin as [i Hi].
  destruct (Forall2_lookup_l _ _ _ _ _ E Hi) as (y & _ & Hy). congruence.
Qed.
End ProviderMore.

(** The private pair [unicodeBase64Encode] / [unicodeBase64Decode] is a round
    trip on every string of whole characters that does not start with
    U+FEFF; the encoder's fallback branch is not needed. *)
Theorem unicodeBase64_round_trip (s : jsstring) :
  Js.wf s -> well_formed s = true -> head s <> Some 0xFEFF ->
  exists encoded,
    ConfigEncryptionProvider.unicodeBase64Encode s = Normal encoded /\
    ConfigEncryptionProvider.unicodeBase64Decode encoded = Normal s.
Proof.
  intros Hs Hw Hh. eexists. split; [by apply unicodeBase64Encode_wf|].
  rewrite unicodeBase64Decode_encoded by done.
  by rewrite TextDecoder_TextEncoder.
Qed.

Lemma unicodeBase64_round_trip_witness :
  exists encoded,
    ConfigEncryptionProvider.unicodeBase64Encode [0x80FD; 0xD83D; 0xDE00; 65]
    = Normal encoded /\
    ConfigEncryptionProvider.unicodeBase64Decode encoded
    = Normal [0x80FD; 0xD83D; 0xDE00; 65].
Proof.
  apply (unicodeBase64_round_trip [0x80FD; 0xD83D; 0xDE00; 65]).
  - unfold Js.wf. repeat (apply Forall_cons_2; [lia|]). apply Forall_nil.
  - reflexivity.
  - discriminate.
Defined.

(** What [encrypt] returns is always accepted by [decrypt], under every
    password: a wrong password is never noticed. *)
Theorem decrypt_accepts_every_password (t p q : jsstring) :
  exists encrypted out,
    ConfigEncryptionProvider.encrypt t p = Normal encrypted /\
    ConfigEncryptionProvider.decrypt encrypted q = Normal out.
Proof.
  eexists _, _. split; [apply encrypt_returns|].
  unfold ConfigEncryptionProvider.decrypt.
  by rewrite unicodeBase64Decode_encoded by apply xor_loop_wf.
Qed.

(** ASCII white space in the encrypted text (a line break at the end of the
    file, say) changes nothing for [decrypt]. *)
Theorem decrypt_ignores_whitespace (before after password : jsstring) (c : Z) :
  is_ascii_whitespace c = true ->
  ConfigEncryptionProvider.decrypt (before ++ c :: after) password
  = ConfigEncryptionProvider.decrypt (before ++ after) password.
Proof.
  intros Hc. apply decrypt_through_atob.
  unfold atob. rewrite !list.filter_app, filter_cons_False; [done|].
  rewrite Hc. discriminate.
Qed.

Lemma decrypt_ignores_whitespace_witness :
  ConfigEncryptionProvider.decrypt (Js.lit "GAQf" ++ 10 :: Js.lit "Hx8=")
    (Js.lit "pass")
  = ConfigEncryptionProvider.decrypt (Js.lit "GAQf" ++ Js.lit "Hx8=")
      (Js.lit "pass").
Proof.
  apply (decrypt_ignores_whitespace (Js.lit "GAQf") (Js.lit "Hx8=")
           (Js.lit "pass") 10).
  reflexivity.
Defined.

(** One character outside the Base64 alphabet, other than white space and
    ['='], anywhere in the input makes [decrypt] throw its error. *)
Theorem decrypt_rejects_foreign_character (input password : jsstring) (c : Z) :
  c ∈ input ->
  base64_value c = None -> is_ascii_whitespace c = false -> c <> equals_sign ->
  ConfigEncryptionProvider.decrypt input password
  = Throw (Error "解密失败：数据格式错误或密码不正确").
Proof.
  intros Hin Hv Hw He.
  assert (atob input = Throw InvalidCharacterError) as Ha.
  { unfold atob.
    set (data := filter (fun c => is_ascii_whitespace c = false) input).
    assert (c ∈ data) as Hd by (by apply list_elem_of_filter).
    set (data' := if Js.length data mod 4 =? 0 then remove_padding data else data).
    assert (c ∈ data') as Hd'.
    { unfold data'. destruct (_ =? 0); [by apply remove_padding_keeps|done]. }
    destruct (_ =? 1); [done|].
    by rewrite (mapM_None_elem base64_value data' c Hd' Hv). }
  unfold ConfigEncryptionProvider.decrypt,
    ConfigEncryptionProvider.unicodeBase64Decode.
  by rewrite Ha.
Qed.

Lemma decrypt_rejects_foreign_character_witness :
  ConfigEncryptionProvider.decrypt (Js.lit "GAQf-x8=") (Js.lit "pass")
  = Throw (Error "解密失败：数据格式错误或密码不正确").
Proof.
  apply (decrypt_rejects_foreign_character (Js.lit "GAQf-x8=") (Js.lit "pass") 45).
  - vm_compute. do 4 apply list_elem_of_further. apply list_elem_of_here.
  - reflexivity.
  - reflexivity.
  - discriminate.
Defined.

Section ProviderKeys.
Import ConfigEncryptionProvider.
Implicit Types (t p : jsstring).

(** The key unit for index [k] is the same under [p ++ p] as under [p]. *)
Lemma key_unit_doubled p (k : nat) :
  charCodeAt (p ++ p) (remainder (Z.of_nat k) (Js.length (p ++ p)))
  = charCodeAt p (remainder (Z.of_nat k) (Js.length p)).
Proof.
  destruct p as [|c0 r]; [done|].
  set (p := c0 :: r). set (i := Z.of_nat k).
  assert (0 < Js.length p) as Hm by (unfold Js.length, p; simpl; lia).
  rewrite js_length_app. unfold remainder.
  destruct (Z.eqb_spec (Js.length p + Js.length p) 0); [lia|].
  destruct (Z.eqb_spec (Js.length p) 0); [lia|].
  rewrite !Z.rem_mod_nonneg by lia.
  replace (Js.length p + Js.length p) with (2 * Js.length p) by lia.
  pose proof (Z.mod_pos_bound i (2 * Js.length p) ltac:(lia)) as Hj.
  assert (i mod Js.length p = (i mod (2 * Js.length p)) mod Js.length p) as Hmod.
  { rewrite (Z.div_mod i (2 * Js.length p)) at 1 by lia.
    replace (2 * Js.length p * (i / (2 * Js.length p)) + i mod (2 * Js.length p))
      with (i mod (2 * Js.length p) + (2 * (i / (2 * Js.length p))) * Js.length p)
      by ring.
    apply Z_mod_plus_full. }
  rewrite Hmod. set (j := i mod (2 * Js.length p)) in *.
  assert (forall s x, 0 <= x -> charCodeAt s (Some x) = s !! Z.to_nat x) as Hat.
  { intros s x Hx. rewrite <- (Z2Nat.id x) at 1 by lia. apply charCodeAt_lookup. }
  destruct (Z.lt_ge_cases j (Js.length p)) as [Hlt|Hge].
  - rewrite (Z.mod_small j) by lia. rewrite !Hat by lia.
    apply lookup_app_l. unfold Js.length in Hlt. lia.
  - assert (j mod Js.length p = j - Js.length p) as ->.
    { symmetry. apply (Z.mod_unique j (Js.length p) 1); lia. }
    rewrite !Hat by lia.
    rewrite lookup_app_r by (unfold Js.length in Hge; lia).
    f_equal. unfold Js.length. lia.
Qed.

Lemma base64_encode_alphabet (bytes : list Z) :
  Forall byte_range bytes ->
  Forall (fun ch => is_Some (base64_value ch) \/ ch = equals_sign)
    (base64_encode bytes).
Proof.
  intros Hb. pose proof (base64_values_range bytes Hb) as Hv. revert Hb Hv.
  induction bytes as [| a | a b | a b c l IH] using list_ind3; intros Hb Hv.
  - constructor.
  - simpl in Hv. decompose_Forall_hyps.
    repeat match goal with
      | H : 0 <= ?n < 64 |- _ =>
          destruct (base64_char_value n H) as (? & _ & _); clear H
      end.
    simpl. repeat (apply Forall_cons_2; [first [by left; eexists | by right]|]).
    constructor.
  - simpl in Hv. decompose_Forall_hyps.
    repeat match goal with
      | H : 0 <= ?n < 64 |- _ =>
          destruct (base64_char_value n H) as (? & _ & _); clear H
      end.
    simpl. repeat (apply Forall_cons_2; [first [by left; eexists | by right]|]).
    constructor.
  - rewrite base64_values_cons3 in Hv. rewrite base64_encode_cons3.
    apply Forall_cons_1 in Hb as [_ Hb]. apply Forall_cons_1 in Hb as [_ Hb].
    apply Forall_cons_1 in Hb as [_ Hb].
    apply Forall_cons_1 in Hv as [H1 Hv]. apply Forall_cons_1 in Hv as [H2 Hv].
    apply Forall_cons_1 in Hv as [H3 Hv]. apply Forall_cons_1 in Hv as [H4 Hv].
    destruct (base64_char_value _ H1) as (E1 & _).
    destruct (base64_char_value _ H2) as (E2 & _).
    destruct (base64_char_value _ H3) as (E3 & _).
    destruct (base64_char_value _ H4) as (E4 & _).
    repeat (apply Forall_cons_2; [by left; eexists|]). by apply IH.
Qed.
End ProviderKeys.

(** A password written twice encrypts like the password itself: ["abab"]
    and ["ab"] are the same key. *)
Theorem encrypt_password_repeated (t p : jsstring) :
  ConfigEncryptionProvider.encrypt t (p ++ p)
  = ConfigEncryptionProvider.encrypt t p.
Proof.
  unfold ConfigEncryptionProvider.encrypt. f_equal.
  rewrite !xor_loop_imap. apply imap_ext. intros k c _.
  cbv beta. by rewrite key_unit_doubled.
Qed.

(** What [encrypt] returns is Base64 text: a multiple of four characters,
    each from the alphabet or ['='], whatever the text and the password. *)
Theorem encrypt_output_is_base64 (t p : jsstring) :
  exists encrypted,
    ConfigEncryptionProvider.encrypt t p = Normal encrypted /\
    Js.length encrypted mod 4 = 0 /\
    Forall (fun ch => is_Some (base64_value ch) \/ ch = equals_sign) encrypted.
Proof.
  eexists. split; [apply encrypt_returns|].
  pose proof (TextEncoder_encode_bytes _
                (xor_loop_wf t p)) as Hb.
  split.
  - apply (base64_encode_shape _ Hb).
  - by apply base64_encode_alphabet.
Qed.

(** The XOR pass of [encrypt] and [decrypt], run twice with the same
    password, gives the string back. *)
Theorem xor_pass_self_inverse (data password : jsstring) :
  Js.wf data -> Js.wf password ->
  ConfigEncryptionProvider.xor_loop
    (ConfigEncryptionProvider.xor_loop data password) password = data.
Proof.
  intros Hd Hp.
  rewrite (xor_loop_imap (ConfigEncryptionProvider.xor_loop data password)).
  rewrite xor_loop_imap. apply list_eq. intros i.
  rewrite !list_lookup_imap.
  destruct (data !! i) as [c|] eqn:E; [|done]. simpl. f_equal.
  unfold Js.wf in Hd. rewrite Forall_lookup in Hd.
  apply bitxor_unit; [apply (Hd _ _ E)|by apply charCodeAt_wf].
Qed.

Lemma xor_pass_self_inverse_witness :
  ConfigEncryptionProvider.xor_loop
    (ConfigEncryptionProvider.xor_loop [0x80FD; 65] [0x5BC6; 0x7801])
    [0x5BC6; 0x7801]
  = [0x80FD; 65].
Proof.
  apply (xor_pass_self_inverse [0x80FD; 65] [0x5BC6; 0x7801]);
    unfold Js.wf; repeat (apply Forall_cons_2; [lia|]); apply Forall_nil.
Defined.

(** The round trip where it holds in general: the XORed text is a string of
    whole characters that does not start with U+FEFF. *)
Theorem decrypt_encrypt_when_representable (t p : jsstring) :
  Js.wf t -> Js.wf p ->
  well_formed (ConfigEncryptionProvider.xor_loop t p) = true ->
  head (ConfigEncryptionProvider.xor_loop t p) <> Some 0xFEFF ->
  exists c,
    ConfigEncryptionProvider.encrypt t p = Normal c /\
    ConfigEncryptionProvider.decrypt c p = Normal t.
Proof.
  intros Ht Hp Hw Hh. eexists. split; [apply encrypt_returns|].
  unfold ConfigEncryptionProvider.decrypt.
  rewrite unicodeBase64Decode_encoded by apply xor_loop_wf.
  rewrite TextDecoder_TextEncoder by (done || apply xor_loop_wf).
  by rewrite xor_loop_involutive.
Qed.

Lemma decrypt_encrypt_when_representable_witness :
  exists c,
    ConfigEncryptionProvider.encrypt [0x80FD; 65] [0x7801; 0x5BC6; 49; 50] = Normal c /\
    ConfigEncryptionProvider.decrypt c [0x7801; 0x5BC6; 49; 50]
    = Normal [0x80FD; 65].
Proof.
  apply (decrypt_encrypt_when_representable [0x80FD; 65] [0x7801; 0x5BC6; 49; 50]).
  - unfold Js.wf. repeat (apply Forall_cons_2; [lia|]). apply Forall_nil.
  - unfold Js.wf. repeat (apply Forall_cons_2; [lia|]). apply Forall_nil.
  - vm_compute. reflexivity.
  - vm_compute. discriminate.
Defined.

(** Under an ASCII password the round trip holds for every text of whole
    characters whose first unit is outside U+FE80..U+FEFF. *)
Theorem decrypt_encrypt_under_ascii_password (t p : jsstring) :
  Js.wf t -> ascii_only p ->
  well_formed t = true ->
  (forall c, head t = Some c -> ~ (0xFE80 <= c <= 0xFEFF)) ->
  exists c,
    ConfigEncryptionProvider.encrypt t p = Normal c /\
    ConfigEncryptionProvider.decrypt c p = Normal t.
Proof.
  intros Ht Hp Hw Hh.
  assert (Js.wf p) as Hp'.
  { unfold Js.wf. apply Forall_lookup. intros i k E.
    pose proof Hp as Hp2. unfold ascii_only in Hp2.
    rewrite Forall_lookup in Hp2. specialize (Hp2 i k E). simpl in Hp2. lia. }
  apply decrypt_encrypt_representable; try done.
  - rewrite xor_loop_imap, well_formed_imap; try done.
    intros k c Hc. by apply xor_unit_ascii_block.
  - rewrite xor_loop_imap. destruct t as [|c r]; [done|].
    rewrite imap_cons. cbn [head]. intros [= E].
    apply Forall_cons_1 in Ht as [Hc _].
    pose proof (xor_unit_ascii_block p 0 c Hp Hc) as Hb.
    rewrite E in Hb. apply (Hh c eq_refl). divlia.
Qed.

Lemma decrypt_encrypt_under_ascii_password_witness :
  exists c,
    ConfigEncryptionProvider.encrypt [0x80FD; 0xD83D; 0xDE00] (Js.lit "pass")
    = Normal c /\
    ConfigEncryptionProvider.decrypt c (Js.lit "pass")
    = Normal [0x80FD; 0xD83D; 0xDE00].
Proof.
  apply (decrypt_encrypt_under_ascii_password
           [0x80FD; 0xD83D; 0xDE00] (Js.lit "pass")).
  - unfold Js.wf. repeat (apply Forall_cons_2; [lia|]). apply Forall_nil.
  - change (Js.lit "pass") with [112; 97; 115; 115].
    unfold ascii_only. repeat (apply Forall_cons_2; [lia|]). apply Forall_nil.
  - reflexivity.
  - intros c [= <-]. lia.
Defined.

(** ** More on the masking utility *)

(** Position by position, the masked text shows either the character of the
    input or ['*']: nothing is moved and nothing else is written. *)
Theorem maskUsername_shows_input_or_star (s : jsstring) (i : nat) (c : Z) :
  maskUsername s !! i = Some c -> s !! i = Some c \/ c = star.
Proof.
  destruct (maskUsername_cases s)
    as [->|(a & mid & b & dom & -> & _ & _ & _ & ->)]; [by left|].
  destruct i as [|i]; [by left|]. rewrite !lookup_cons.
  destruct (decide (i < length mid)%nat) as [Hi|Hi].
  - rewrite lookup_app_l by (by rewrite length_replicate).
    intros H. apply lookup_replicate_1 in H as [-> _]. by right.
  - rewrite !lookup_app_r by (rewrite ?length_replicate; lia).
    rewrite length_replicate. by left.
Qed.

Lemma maskUsername_shows_input_or_star_witness :
  Js.lit "abcd@x.com" !! 1%nat = Some 42 \/ 42 = star.
Proof.
  apply (maskUsername_shows_input_or_star (Js.lit "abcd@x.com") 1 42).
  reflexivity.
Defined.

(** The masked text does not depend on the characters it covers: two
    addresses that differ only strictly inside the local part, in the same
    number of characters, are masked to the same text. *)
Theorem maskUsername_hides_middle (a b : Z) (mid mid' dom : jsstring) :
  length mid = length mid' -> mid <> [] -> dom <> [] -> (at_sign ∉ dom) ->
  maskUsername (a :: mid ++ b :: at_sign :: dom)
  = maskUsername (a :: mid' ++ b :: at_sign :: dom).
Proof.
  intros Hl Hmid Hdom Hn.
  assert (mid' <> []) as Hmid'.
  { intros ->. destruct mid; [done|discriminate Hl]. }
  rewrite !maskUsername_long by done. by rewrite Hl.
Qed.

Lemma maskUsername_hides_middle_witness :
  maskUsername (Js.lit "alice@x.com") = maskUsername (Js.lit "akxze@x.com").
Proof.
  apply (maskUsername_hides_middle 97 101 (Js.lit "lic") (Js.lit "kxz")
           (Js.lit "x.com")).
  - reflexivity.
  - discriminate.
  - discriminate.
  - vm_compute. intros H.
    repeat (apply elem_of_cons in H as [H|H]; [discriminate H|]).
    by apply elem_of_nil in H.
Defined.

(** ** Window-close handler *)

Ltac hook_unfold :=
  unfold WindowClose.onCloseRequested, SystemTrayService.isSystemTrayEnabled,
    SystemTrayService.minimizeToTray;
  unfold mbind, mret, WindowClose.hook_bind, WindowClose.hook_ret,
    WindowClose.hbind, WindowClose.hret, WindowClose.htry_catch,
    WindowClose.lift, WindowClose.window_do, WindowClose.preventDefault,
    WindowClose.set_shouldPreventClose, invoke, console_write;
  cbn [WindowClose.services WindowClose.window_ops
       WindowClose.default_prevented WindowClose.shouldPreventClose
       calls console status_updates fst snd].

(** Whatever the backend and the window answer, the handler catches it: the
    listener never rejects. *)
Theorem onCloseRequested_never_rejects
  (event : WindowClose.close_event) (e : WindowClose.hook_env)
  (w : WindowClose.hook_world) :
  (WindowClose.onCloseRequested event e w).1 = Resolved tt.
Proof.
  hook_unfold.
  destruct (backend _ _ is_system_tray_enabled) as [v|r];
    cbn [WindowClose.services WindowClose.window_ops
         WindowClose.default_prevented WindowClose.shouldPreventClose
         calls console status_updates fst snd].
  - destruct (falsy v); cbn.
    + destruct (WindowClose.window e _ _) as [[]|?]; cbn; [done|].
      destruct (WindowClose.window e _ _) as [[]|?]; cbn; done.
    + destruct (WindowClose.window e _ _) as [[]|?]; cbn.
      * destruct (backend _ _ minimize_to_tray); cbn.
        -- destruct (WindowClose.window e _ _) as [[]|?]; cbn; [done|].
           destruct (WindowClose.window e _ _) as [[]|?]; cbn; done.
        -- destruct (WindowClose.window e _ _) as [[]|?]; cbn; done.
      * destruct (WindowClose.window e _ _) as [[]|?]; cbn; done.
  - destruct (WindowClose.window e _ _) as [[]|?]; cbn; done.
Qed.

Ltac hook_fields :=
  cbn [WindowClose.services WindowClose.window_ops
       WindowClose.default_prevented WindowClose.shouldPreventClose
       calls console status_updates fst snd].




(** Tray reported disabled and the event going out: the default close is
    left alone, nothing is hidden, the backend is not asked to minimize,
    [window-normal-close] is emitted and the flag is cleared. *)
Theorem onCloseRequested_tray_disabled
  (event : WindowClose.close_event) (e : WindowClose.hook_env)
  (w : WindowClose.hook_world) (v : value) :
  backend (WindowClose.service_env e) (calls (WindowClose.services w))
    is_system_tray_enabled = Resolved v ->
  falsy v = true ->
  (forall w', WindowClose.window e w' (WindowClose.Emit "window-normal-close")
              = Resolved tt) ->
  let w' := (WindowClose.onCloseRequested event e w).2 in
  WindowClose.window_ops w'
  = WindowClose.window_ops w ++ [WindowClose.Emit "window-normal-close"] /\
  WindowClose.default_prevented w' = WindowClose.default_prevented w /\
  WindowClose.shouldPreventClose w' = false /\
  calls (WindowClose.services w')
  = calls (WindowClose.services w) ++ [is_system_tray_enabled].
Proof.
  intros Hq Hv Hwin. hook_unfold.
  rewrite Hq. hook_fields. rewrite Hv. cbn [negb].
  rewrite Hwin. hook_fields. done.
Qed.

Lemma onCloseRequested_tray_disabled_witness :
  let w' := (WindowClose.onCloseRequested
               {| WindowClose.has_preventDefault := true |}
               (WindowClose.willing_window (WindowClose.tray_reported false))
               WindowClose.fresh).2 in
  WindowClose.window_ops w' = [WindowClose.Emit "window-normal-close"] /\
  WindowClose.default_prevented w' = false /\
  WindowClose.shouldPreventClose w' = false /\
  calls (WindowClose.services w') = [is_system_tray_enabled].
Proof.
  exact (onCloseRequested_tray_disabled
           {| WindowClose.has_preventDefault := true |}
           (WindowClose.willing_window (WindowClose.tray_reported false))
           WindowClose.fresh (VBool false)
           eq_refl eq_refl (fun _ => eq_refl)).
Defined.


(** The tray query rejected: the handler still tries to hide the window and
    sets the flag, but the default close was not prevented, and nothing is
    emitted. *)
Theorem onCloseRequested_query_rejected
  (event : WindowClose.close_event) (e : WindowClose.hook_env)
  (w : WindowClose.hook_world) (reason : value) :
  backend (WindowClose.service_env e) (calls (WindowClose.services w))
    is_system_tray_enabled = Rejected reason ->
  let w' := (WindowClose.onCloseRequested event e w).2 in
  WindowClose.window_ops w' = WindowClose.window_ops w ++ [WindowClose.Hide] /\
  WindowClose.default_prevented w' = WindowClose.default_prevented w /\
  WindowClose.shouldPreventClose w' = true /\
  calls (WindowClose.services w')
  = calls (WindowClose.services w) ++ [is_system_tray_enabled].
Proof.
  intros Hq. hook_unfold. rewrite Hq. hook_fields.
  destruct (WindowClose.window e _ _) as [[]|?]; hook_fields; done.
Qed.

Lemma onCloseRequested_query_rejected_witness :
  let w' := (WindowClose.onCloseRequested
               {| WindowClose.has_preventDefault := true |}
               (WindowClose.willing_window offline)
               WindowClose.fresh).2 in
  WindowClose.window_ops w' = [WindowClose.Hide] /\
  WindowClose.default_prevented w' = false /\
  WindowClose.shouldPreventClose w' = true /\
  calls (WindowClose.services w') = [is_system_tray_enabled].
Proof.
  exact (onCloseRequested_query_rejected
           {| WindowClose.has_preventDefault := true |}
           (WindowClose.willing_window offline)
           WindowClose.fresh (VString "backend offline") eq_refl).
Defined.


(** The window hidden but the backend refusing to minimize: no event is
    emitted, and the error path hides the window a second time. *)
Theorem onCloseRequested_minimize_rejected
  (event : WindowClose.close_event) (e : WindowClose.hook_env)
  (w : WindowClose.hook_world) (v reason : value) :
  backend (WindowClose.service_env e) (calls (WindowClose.services w))
    is_system_tray_enabled = Resolved v ->
  falsy v = false ->
  (forall w', WindowClose.window e w' WindowClose.Hide = Resolved tt) ->
  backend (WindowClose.service_env e)
    (calls (WindowClose.services w) ++ [is_system_tray_enabled])
    minimize_to_tray = Rejected reason ->
  let w' := (WindowClose.onCloseRequested event e w).2 in
  WindowClose.window_ops w'
  = WindowClose.window_ops w ++ [WindowClose.Hide; WindowClose.Hide] /\
  WindowClose.default_prevented w'
  = WindowClose.default_prevented w || WindowClose.has_preventDefault event /\
  WindowClose.shouldPreventClose w' = true.
Proof.
  intros Hq Hv Hwin Hm. hook_unfold.
  rewrite Hq. hook_fields. rewrite Hv. cbn [negb].
  rewrite Hwin. hook_fields. rewrite Hm. hook_fields.
  rewrite Hwin. hook_fields.
  rewrite <- !app_assoc. done.
Qed.

Lemma onCloseRequested_minimize_rejected_witness :
  let w' := (WindowClose.onCloseRequested
               {| WindowClose.has_preventDefault := true |}
               (WindowClose.willing_window WindowClose.minimize_refused)
               WindowClose.fresh).2 in
  WindowClose.window_ops w' = [WindowClose.Hide; WindowClose.Hide] /\
  WindowClose.default_prevented w' = true /\
  WindowClose.shouldPreventClose w' = true.
Proof.
  exact (onCloseRequested_minimize_rejected
           {| WindowClose.has_preventDefault := true |}
           (WindowClose.willing_window WindowClose.minimize_refused)
           WindowClose.fresh (VBool true) (VString "no tray icon")
           eq_refl eq_refl (fun _ => eq_refl) eq_refl).
Defined.


(** What the handler never does: it sends no command but the tray query and,
    after it, at most one [minimize_to_tray]; it gives no status update; and
    it prevents the default close only when the tray was reported enabled
    and the event has a [preventDefault]. *)
Theorem onCloseRequested_frame
  (event : WindowClose.close_event) (e : WindowClose.hook_env)
  (w : WindowClose.hook_world) :
  let w' := (WindowClose.onCloseRequested event e w).2 in
  (calls (WindowClose.services w')
   = calls (WindowClose.services w) ++ [is_system_tray_enabled] \/
   calls (WindowClose.services w')
   = calls (WindowClose.services w) ++ [is_system_tray_enabled; minimize_to_tray]) /\
  status_updates (WindowClose.services w')
  = status_updates (WindowClose.services w) /\
  (WindowClose.default_prevented w' = WindowClose.default_prevented w \/
   WindowClose.has_preventDefault event = true /\
   exists v,
     backend (WindowClose.service_env e) (calls (WindowClose.services w))
       is_system_tray_enabled = Resolved v /\ falsy v = false).
Proof.
  hook_unfold.
  destruct (backend _ _ is_system_tray_enabled) as [v|r] eqn:Hq; hook_fields.
  - destruct (falsy v) eqn:Hv; cbn [negb].
    + destruct (WindowClose.window e _ _) as [[]|?]; hook_fields.
      * repeat split; auto.
      * destruct (WindowClose.window e _ _) as [[]|?]; hook_fields;
          repeat split; auto.
    + assert (WindowClose.default_prevented w || WindowClose.has_preventDefault event
              = WindowClose.default_prevented w \/
              WindowClose.has_preventDefault event = true /\
              exists v0, Resolved v = Resolved v0 /\ falsy v0 = false) as Hp.
      { destruct (WindowClose.has_preventDefault event).
        - right. eauto.
        - left. apply orb_false_r. }
      destruct (WindowClose.window e _ _) as [[]|?]; hook_fields.
      * destruct (backend _ _ minimize_to_tray); hook_fields.
        -- destruct (WindowClose.window e _ _) as [[]|?]; hook_fields.
           ++ rewrite <- !app_assoc. repeat split; auto.
           ++ destruct (WindowClose.window e _ _) as [[]|?]; hook_fields;
                rewrite <- !app_assoc; repeat split; auto.
        -- destruct (WindowClose.window e _ _) as [[]|?]; hook_fields;
             rewrite <- !app_assoc; repeat split; auto.
      * destruct (WindowClose.window e _ _) as [[]|?]; hook_fields;
          repeat split; auto.
  - destruct (WindowClose.window e _ _) as [[]|?]; hook_fields;
      repeat split; auto.
Qed.
